(** * plot_csv.py: label normalizer, CSV loaders, render set-up and hover resolver

    A shallow embedding of [src/plot_csv.py].  Python values are modelled as
    follows.

    - A [str] is the list of its Unicode code points ([N]); whitespace is the
      set recognised by [str.isspace], which is what [str.strip()] removes.
    - A [dict] that is only read by key and iterated through [sorted(...)] is
      a [gmap]; the row dictionaries of [csv.DictReader] keep their insertion
      order and are association lists.
    - An exception is a value of [exc]; code that can raise returns a
      [result].  [option] is used where the only failure is an [IndexError]
      or a failed conversion.
    - What the program takes from the interpreter, from numpy and from
      matplotlib ([float()], [int()], [format(x, ".3f")], [float.__lt__],
      [sorted], the [float64] values a line holds and their [str()]) is
      collected in the class [Runtime]; [sorted] comes with the three facts
      Python fixes about it, and with nothing else.  What [Line2D.contains]
      answers is part of the event the handler receives.  Every general
      theorem holds for all runtimes.  [Sample.ieee] is the runtime of the
      concrete examples: binary64 floats with their own comparison, sorted
      the way [list.sort] sorts a short list.
    - A file is what [csv.reader] makes of it, a list of records; decoding
      and tokenising are not modelled. *)

From Stdlib Require Import NArith ZArith String Ascii.
From Stdlib Require PrimFloat Uint63.
From stdpp Require Import base option list gmap sorting.

Local Open Scope Z_scope.
Local Open Scope nat_scope.

(** ** Python strings *)

Module Py.

Definition char := N.
Definition str := list char.

Definition ch (a : ascii) : char := N_of_ascii a.

(** A string literal of the source. *)
Fixpoint lit (s : string) : str :=
  match s with
  | EmptyString => []
  | String a r => ch a :: lit r
  end.

(** [str.isspace] on one code point (CPython's [_PyUnicode_IsWhitespace]). *)
Definition isspace (c : char) : bool :=
  ((9 <=? c) && (c <=? 13) || (28 <=? c) && (c <=? 32)
   || (c =? 133) || (c =? 160) || (c =? 5760)
   || (8192 <=? c) && (c <=? 8202)
   || (c =? 8232) || (c =? 8233) || (c =? 8239) || (c =? 8287)
   || (c =? 12288))%N.

Fixpoint lstrip (s : str) : str :=
  match s with
  | [] => []
  | c :: r => if isspace c then lstrip r else s
  end.

Definition rstrip (s : str) : str := rev (lstrip (rev s)).

(** [s.strip()] *)
Definition strip (s : str) : str := rstrip (lstrip s).

(** [c in s] for a one-character [c]. *)
Definition contains (c : char) (s : str) : bool := existsb (N.eqb c) s.

(** The two pieces of [s] around the first occurrence of [c]. *)
Fixpoint cut (c : char) (s : str) : option (str * str) :=
  match s with
  | [] => None
  | x :: r =>
      if N.eqb x c then Some ([], r)
      else match cut c r with
           | Some (a, b) => Some (x :: a, b)
           | None => None
           end
  end.

(** The two pieces of [s] around the last occurrence of [c]. *)
Fixpoint rcut (c : char) (s : str) : option (str * str) :=
  match s with
  | [] => None
  | x :: r =>
      match rcut c r with
      | Some (a, b) => Some (x :: a, b)
      | None => if N.eqb x c then Some ([], r) else None
      end
  end.

(** [s.split(c, 1)] *)
Definition split1 (c : char) (s : str) : list str :=
  match cut c s with
  | Some (a, b) => [a; b]
  | None => [s]
  end.

(** [s.rsplit(c, 1)] *)
Definition rsplit1 (c : char) (s : str) : list str :=
  match rcut c s with
  | Some (a, b) => [a; b]
  | None => [s]
  end.

(** [s.startswith(p)] *)
Fixpoint startswith (s p : str) {struct p} : bool :=
  match p, s with
  | [], _ => true
  | _ :: _, [] => false
  | a :: p', b :: s' => N.eqb a b && startswith s' p'
  end.

(** [a < b] on strings: lexicographic on code points. *)
Fixpoint str_lt (a b : str) : bool :=
  match a, b with
  | _, [] => false
  | [], _ :: _ => true
  | x :: a', y :: b' => (x <? y)%N || (x =? y)%N && str_lt a' b'
  end.

(** [sep.join(parts)] *)
Fixpoint join (sep : str) (parts : list str) : str :=
  match parts with
  | [] => []
  | [p] => p
  | p :: rest => p ++ sep ++ join sep rest
  end.

(** [str(n)] for an [int]. *)
Definition digit (n : nat) : char := (48 + N.of_nat n)%N.

Fixpoint digits (fuel n : nat) (acc : str) : str :=
  match fuel with
  | O => acc
  | S fuel' =>
      let acc' := digit (n `mod` 10) :: acc in
      if n <? 10 then acc' else digits fuel' (n `div` 10) acc'
  end.

Definition str_of_nat (n : nat) : str := digits (S n) n [].


End Py.

Import Py.

(** ** The label normalizer ([normalize], nested in [read_events]) *)

Definition known_actors : list str := [lit "Farm"; lit "Mill"; lit "Bakery"].

(** Lines 12 to 14: [actor], [inner] and [variant].  [None] is an
    [IndexError] from a subscript. *)
Definition nested_actor (s : str) : option str :=
  strip <$> split1 (ch "(") s !! 0.

Definition nested_inner (s : str) : option str :=
  rest ← split1 (ch "(") s !! 1;
  rsplit1 (ch ")") rest !! 0.

Definition nested_variant (inner : str) : option str :=
  v ← split1 (ch "{") inner !! 0;
  strip <$> split1 (ch "(") v !! 0.

(** The [if "(" in s and ")" in s:] block.  The outer [option] is [None]
    when a subscript raises; the inner one is [None] when the block falls
    through to the code after it. *)
Definition normalize_nested (s : str) : option (option str) :=
  if contains (ch "(") s && contains (ch ")") s then
    actor ← nested_actor s;
    inner ← nested_inner s;
    variant ← nested_variant inner;
    if bool_decide (actor ≠ []) && bool_decide (variant ≠ [])
    then Some (Some (actor ++ lit "." ++ variant))
    else Some None
  else Some None.

(** The test of the loop of line 19 on one name. *)
Definition actor_prefix (head name : str) : bool :=
  startswith head name && (length name <? length head).

(** The [for actor in ("Farm", "Mill", "Bakery"):] loop; [None] when the
    loop ends without returning. *)
Fixpoint normalize_loop (names : list str) (head : str) : option str :=
  match names with
  | [] => None
  | actor :: names' =>
      if actor_prefix head actor
      then Some (actor ++ lit "." ++ drop (length actor) head)
      else normalize_loop names' head
  end.

Definition normalize_fallback (s : str) : option str :=
  h ← split1 (ch "{") s !! 0;
  head ← strip <$> split1 (ch "(") h !! 0;
  Some (default head (normalize_loop known_actors head)).

(** [normalize(label)]; [None] stands for an escaping exception. *)
Definition normalize (label : str) : option str :=
  let s := strip label in
  r ← normalize_nested s;
  match r with
  | Some out => Some out
  | None => normalize_fallback s
  end.

(** *** The normalizer in the words of the specification *)

(** Index of the first character satisfying [p]. *)
Fixpoint first_index (p : char → bool) (s : str) : option nat :=
  match s with
  | [] => None
  | c :: r => if p c then Some 0 else S <$> first_index p r
  end.

(** Index of the last character satisfying [p]. *)
Fixpoint last_index (p : char → bool) (s : str) : option nat :=
  match s with
  | [] => None
  | c :: r =>
      match last_index p r with
      | Some i => Some (S i)
      | None => if p c then Some 0 else None
      end
  end.

Definition is_char (c : char) : char → bool := N.eqb c.
Definition is_brace_or_paren (c : char) : bool :=
  is_char (ch "{") c || is_char (ch "(") c.

(** The portion of [s] before the leftmost character satisfying [p]. *)
Definition before_first (p : char → bool) (s : str) : str :=
  match first_index p s with
  | Some i => take i s
  | None => s
  end.

(** [s[i:j]] *)
Definition slice (i j : nat) (s : str) : str := take (j - i) (drop i s).

(** "the substring between the first ( and the last )" *)
Definition between_parens_spec (s : str) : option str :=
  i ← first_index (is_char (ch "(")) s;
  j ← last_index (is_char (ch ")")) s;
  Some (slice (S i) j s).

(** What the source takes as [inner]: the text after the first ( up to the
    last ) found in that text, or all of it when no ) follows. *)
Definition inner_after_open (s : str) : option str :=
  i ← first_index (is_char (ch "(")) s;
  let rest := drop (S i) s in
  Some (match last_index (is_char (ch ")")) rest with
        | Some j => take j rest
        | None => rest
        end).

(** The three values of the nested pattern as the specification words them,
    at one input. *)
Definition nested_pattern_spec (s : str) : Prop :=
  nested_actor s = Some (strip (before_first (is_char (ch "(")) s))
  ∧ nested_inner s = between_parens_spec s
  ∧ ∀ inner, nested_inner s = Some inner →
      nested_variant inner = Some (strip (before_first is_brace_or_paren inner)).

Definition head_spec (s : str) : str := strip (before_first is_brace_or_paren s).

(** Steps 1 and 2 of the specification's algorithm, with [inner] read as
    [between_parens_spec]. *)
Definition normalize_spec (label : str) : str :=
  let s := strip label in
  let fallback :=
    default (head_spec s) (normalize_loop known_actors (head_spec s)) in
  if contains (ch "(") s && contains (ch ")") s then
    let actor := strip (before_first (is_char (ch "(")) s) in
    let inner := default [] (between_parens_spec s) in
    let variant := strip (before_first is_brace_or_paren inner) in
    if bool_decide (actor ≠ []) && bool_decide (variant ≠ [])
    then actor ++ lit "." ++ variant
    else fallback
  else fallback.

(** ** Exceptions *)

Inductive exc :=
  | SystemExit (code : Z + str)   (* [sys.exit(n)], [raise SystemExit(msg)] *)
  | Exception (msg : str).        (* any instance of [Exception] *)

Inductive result (A : Type) :=
  | Ok (a : A)
  | Raise (e : exc).
Arguments Ok {A} a.
Arguments Raise {A} e.

(** ** Orders, insertion and [bisect.bisect_left] *)

Section Sorting.
Context {A : Type} (lt : A → A → bool).

(** No element is smaller than the one before it. *)
Fixpoint is_run (l : list A) : bool :=
  match l with
  | x :: (y :: _) as r => negb (lt y x) && is_run r
  | _ => true
  end.

(** Insertion behind every element that is not greater. *)
Fixpoint insert_sorted (x : A) (l : list A) : list A :=
  match l with
  | [] => [x]
  | y :: r => if lt x y then x :: l else y :: insert_sorted x r
  end.

(** The stable sort: the elements are inserted one after the other. *)
Definition insertion_sort (l : list A) : list A :=
  fold_left (λ acc x, insert_sorted x acc) l [].

(** The loop of [bisect_left(a, x)]; [None] when the fuel runs out or a
    subscript is out of range. *)
Fixpoint bisect_loop (fuel : nat) (a : list A) (x : A) (lo hi : nat)
  : option nat :=
  match fuel with
  | O => None
  | S fuel' =>
      if lo <? hi then
        let mid := (lo + hi) `div` 2 in
        v ← a !! mid;
        if lt v x then bisect_loop fuel' a x (mid + 1) hi
        else bisect_loop fuel' a x lo mid
      else Some lo
  end.

Definition bisect_left (a : list A) (x : A) : option nat :=
  bisect_loop (S (length a)) a x 0 (length a).

(** [x] is not greater than [y]. *)
Definition not_greater (x y : A) : Prop := lt y x = false.

(** No element is greater than a later one. *)
Definition ascending (l : list A) : Prop := StronglySorted not_greater l.


(** [lt] is a strict weak order on the elements of [l]: it is asymmetric
    and "not greater" is transitive.  This is what rules out a NaN among
    floats. *)
Definition weak_order_on (l : list A) : Prop :=
  ∀ x y z, x ∈ l → y ∈ l → z ∈ l →
    (lt x y = true → lt y x = false)
    ∧ (not_greater x y → not_greater y z → not_greater x z).

End Sorting.

(** ** What the interpreter, numpy and matplotlib provide *)

Class Runtime := {
  (** the values of Python's [float] and of [numpy.float64] *)
  float : Type;
  (** [a < b] on floats *)
  float_lt : float → float → bool;
  (** [float(s)] for a [str]; [None] is a [ValueError] *)
  to_float : str → option float;
  (** [int(s)] for a [str]; [None] is a [ValueError] *)
  to_int : str → option Z;
  (** [f"{x:.3f}"] *)
  format_3f : float → str;
  (** the [numpy.float64] that stands for a plotted [int] in the data of
      a [Line2D] *)
  of_int : Z → float;
  (** [f"{y}"] for a [numpy.float64]: its [str()] *)
  float_str : float → str;
  (** [sorted(l)], where [lt] is the [<] of the elements *)
  py_sorted : ∀ {A : Type}, (A → A → bool) → list A → list A;
  (** [sorted] returns the elements it was given *)
  sorted_permutes :
    ∀ (A : Type) (lt : A → A → bool) (l : list A), py_sorted lt l ≡ₚ l;
  (** a list in which no element is smaller than the one before it is one
      run for [list.sort], which returns it as it is *)
  sorted_keeps_run :
    ∀ (A : Type) (lt : A → A → bool) (l : list A),
      is_run lt l = true → py_sorted lt l = l;
  (** on elements that [<] orders, [sorted] is the stable sort; for other
      elements (a NaN among floats) the language fixes no more than the
      two facts above *)
  sorted_is_stable :
    ∀ (A : Type) (lt : A → A → bool) (l : list A),
      weak_order_on lt l → py_sorted lt l = insertion_sort lt l;
}.

(** [l[i]] for an [int] index: negative indices count from the end. *)
Definition py_index {A : Type} (l : list A) (i : Z) : option A :=
  let n := Z.of_nat (length l) in
  if (0 <=? i)%Z && (i <? n)%Z then l !! Z.to_nat i
  else if (- n <=? i)%Z && (i <? 0)%Z then l !! Z.to_nat (i + n)
  else None.

(** ** [csv.DictReader] *)

Module Csv.

(** What [csv.reader] yields for a file: one list of fields per record. *)
Definition record := list str.
Definition table := list record.

(** A row of [DictReader]: the named fields in insertion order (a missing
    field holds [None], the [restval]) and, under the key [None], the
    fields beyond the header. *)
Record row := {
  named : list (str * option str);
  rest : option (list str);
}.

(** [d[k] = v] *)
Fixpoint dict_set (k : str) (v : option str) (d : list (str * option str))
  : list (str * option str) :=
  match d with
  | [] => [(k, v)]
  | (k', v') :: d' =>
      if decide (k = k') then (k, v) :: d' else (k', v') :: dict_set k v d'
  end.

(** [d[k]]; [None] is a [KeyError]. *)
Fixpoint dict_get (k : str) (d : list (str * option str))
  : option (option str) :=
  match d with
  | [] => None
  | (k', v) :: d' => if decide (k = k') then Some v else dict_get k d'
  end.

(** [DictReader.__next__] on one non-empty record. *)
Definition make_row (fieldnames : list str) (r : record) : row :=
  let d := fold_left (λ d kv, dict_set kv.1 (Some kv.2) d)
                     (zip fieldnames r) [] in
  let lf := length fieldnames in
  let lr := length r in
  if lf <? lr then {| named := d; rest := Some (drop lf r) |}
  else {| named := fold_left (λ d k, dict_set k None d) (drop lr fieldnames) d;
          rest := None |}.

(** [r.fieldnames]: the first record, [None] for an empty file. *)
Definition fieldnames (t : table) : option (list str) := head t.

(** The rows [for row in r] goes through: empty records are skipped. *)
Definition rows (t : table) : list row :=
  match t with
  | [] => []
  | h :: rs => make_row h <$> filter (λ r, r ≠ []) rs
  end.

(** [required.issubset(r.fieldnames or {})] *)
Definition has_headers (required : list str) (t : table) : bool :=
  forallb (λ k, bool_decide (k ∈ default [] (fieldnames t))) required.

End Csv.

Import Csv.

(** ** The events loader ([read_events]) *)

Section Program.
Context `{Runtime}.

(** The body of the [try] of lines 31 to 37; [None] when it raises. *)
Definition event_of_row (r : row) : option (float * str) :=
  months ← dict_get (lit "months") (named r);
  m ← months;
  t ← to_float m;
  let label := default (Some []) (dict_get (lit "event") (named r)) in
  label ← match rest r with
           | Some (e :: es) => l ← label; Some (join (lit ",") (l :: e :: es))
           | _ => label
           end;
  Some (t, strip label).

Definition IndexError : exc := Exception (lit "IndexError").

(** Lines 30 to 41. *)
Fixpoint events_loop (rs : list row) (times_by_label : gmap str (list float))
  : result (gmap str (list float)) :=
  match rs with
  | [] => Ok times_by_label
  | r :: rs' =>
      match event_of_row r with
      | None => events_loop rs' times_by_label
      | Some (t, label) =>
          match normalize label with
          | None => Raise IndexError
          | Some key =>
              events_loop rs'
                (<[key := default [] (times_by_label !! key) ++ [t]]>
                   times_by_label)
          end
      end
  end.

Definition events_headers : list str := [lit "months"; lit "event"].

(** [read_events(csv_path)], on what [open(csv_path)] gives: the records
    of the file, or the message of the [OSError]. *)
Definition read_events (file : table + str) : result (gmap str (list float)) :=
  match file with
  | inr msg => Raise (Exception msg)
  | inl t =>
      if negb (has_headers events_headers t)
      then Raise (SystemExit
                    (inr (lit "Events CSV missing required headers months,event")))
      else events_loop (rows t) ∅
  end.

(** ** The trace loader (lines 54 to 66 of [main]) *)

(** [int(row[k])] and [float(row[k])]. *)
Definition int_field (k : str) (r : row) : option Z :=
  v ← dict_get k (named r); s ← v; to_int s.

Definition float_field (k : str) (r : row) : option float :=
  v ← dict_get k (named r); s ← v; to_float s.

(** Line 63; [None] when one of the four conversions raises. *)
Definition sample_of_row (r : row) : option (float * Z * Z * Z) :=
  t ← float_field (lit "months") r;
  w ← int_field (lit "wheat") r;
  fl ← int_field (lit "flour") r;
  br ← int_field (lit "bread") r;
  Some (t, w, fl, br).

Record trace := {
  months : list float;
  wheat : list Z;
  flour : list Z;
  bread : list Z;
}.

Fixpoint trace_loop (rs : list row) (tr : trace) : trace :=
  match rs with
  | [] => tr
  | r :: rs' =>
      match sample_of_row r with
      | None => trace_loop rs' tr
      | Some (t, w, fl, br) =>
          trace_loop rs' {| months := months tr ++ [t];
                            wheat := wheat tr ++ [w];
                            flour := flour tr ++ [fl];
                            bread := bread tr ++ [br] |}
      end
  end.

Definition trace_headers : list str :=
  [lit "months"; lit "wheat"; lit "flour"; lit "bread"].

Definition load_trace (t : table) : trace :=
  trace_loop (rows t) {| months := []; wheat := []; flour := []; bread := [] |}.

(** *** The loaders in the words of the specification *)

(** The samples of the rows that convert, in row order. *)
Definition samples (rs : list row) : list (float * Z * Z * Z) :=
  omap sample_of_row rs.

(** The times of the rows whose label normalizes to [key], in row order. *)
Definition times_for (key : str) (rs : list row) : list float :=
  omap (λ r, e ← event_of_row r;
             if decide (normalize e.2 = Some key) then Some e.1 else None) rs.

(** ** Render set-up (lines 75 to 114 of [main]) *)

(** A [Line2D] made by [ax.step]. *)
Record line := {
  line_label : str;
  line_x : list float;
  line_y : list Z;
}.

(** An entry [(ln, label, t)] of [hover_events]; [ln] is the [axvline]. *)
Record marker := {
  marker_color : str;
  marker_label : str;
  marker_time : float;
}.

Inductive artist :=
  | ALine (l : line)
  | AMarker (m : marker).

Record scene := {
  lines : list line;
  hover_events : list marker;
  (** the entries of the legend, from top to bottom *)
  legend : list str;
  plot_title : str;
}.

Definition palette : list str :=
  [lit "tab:blue"; lit "tab:orange"; lit "tab:green"; lit "tab:red";
   lit "tab:purple"; lit "tab:brown"; lit "tab:pink"; lit "gold"].

(** Lines 77 to 86. *)
Definition plot_lines (tr : trace) : list line :=
  match months tr with
  | [] => []
  | _ =>
      [ {| line_label := lit "Wheat"; line_x := months tr; line_y := wheat tr |};
        {| line_label := lit "Flour"; line_x := months tr; line_y := flour tr |};
        {| line_label := lit "Bread"; line_x := months tr; line_y := bread tr |} ]
  end.

(** The order of [sorted(events_by_label.items())]: the keys of a [dict]
    are distinct, so two items always differ in the label and the
    comparison of the tuples is the comparison of the labels. *)
Definition item_lt (a b : str * list float) : bool := str_lt a.1 b.1.

Definition sorted_items (events_by_label : gmap str (list float))
  : list (str * list float) :=
  py_sorted item_lt (map_to_list events_by_label).

(** The markers of one label (lines 100 to 106). *)
Definition label_markers (color label : str) (times : list float)
  : list marker :=
  (λ t, {| marker_color := color; marker_label := label; marker_time := t |})
    <$> py_sorted float_lt times.

Definition label_and_time (mk : marker) : str * float :=
  (marker_label mk, marker_time mk).

(** The label of the empty line that line 108 plots for an event type. *)
Definition stub_label (label : str) (times : list float) : str :=
  label ++ lit " (" ++ str_of_nat (length times) ++ lit ")".

(** The loop of lines 98 to 108, from index [i] on; it extends
    [hover_events] and [labels], the labels of the artists plotted with a
    label so far. *)
Fixpoint overlay_loop (i : nat) (items : list (str * list float))
    (hover : list marker) (labels : list str) : list marker * list str :=
  match items with
  | [] => (hover, labels)
  | (label, times) :: items' =>
      let color := default [] (palette !! (i `mod` length palette)) in
      overlay_loop (S i) items'
        (hover ++ label_markers color label times)
        (labels ++ [stub_label label times])
  end.

Definition overlay (events_by_label : gmap str (list float))
    (labels : list str) : list marker * list str :=
  overlay_loop 0 (sorted_items events_by_label) [] labels.

(** [ax.legend()] (line 113) makes an entry for every artist plotted with
    a label, in the order of plotting, unless the label is empty or begins
    with an underscore. *)
Definition in_legend (label : str) : bool :=
  match label with
  | [] => false
  | c :: _ => negb (c =? ch "_")%N
  end.

Definition ax_legend (labels : list str) : list str :=
  List.filter in_legend labels.

(** ** [main], up to the point where the handler is connected *)

Record args := {
  csv : str;
  out : option str;
  show : bool;
  events : option str;
  title : str;
}.

Record world := {
  (** [open(path)]: the records of the file or the [OSError] message *)
  open_csv : str → table + str;
  (** the error of [import matplotlib.pyplot], if it fails *)
  import_error : option str;
}.

(** What has been printed to [sys.stderr], and how the run ends. *)
Record run := {
  stderr : list str;
  outcome : result scene;
}.

Definition main (w : world) (a : args) : run :=
  match open_csv w (csv a) with
  | inr msg => {| stderr := []; outcome := Raise (Exception msg) |}
  | inl t =>
      if negb (has_headers trace_headers t) then
        {| stderr := [lit "CSV missing required headers months,wheat,flour,bread"];
           outcome := Raise (SystemExit (inl 2%Z)) |}
      else
        let tr := load_trace t in
        match import_error w with
        | Some e =>
            {| stderr := [lit "matplotlib not available: " ++ e];
               outcome := Raise (SystemExit (inl 3%Z)) |}
        | None =>
            let ls := plot_lines tr in
            let labels := line_label <$> ls in
            let finish err hover labels :=
              {| stderr := err;
                 outcome := Ok {| lines := ls; hover_events := hover;
                                  legend := ax_legend labels;
                                  plot_title := title a |} |} in
            match events a with
            | None | Some [] => finish [] [] labels
            | Some path =>
                match read_events (open_csv w path) with
                | Raise (SystemExit c) =>
                    {| stderr := []; outcome := Raise (SystemExit c) |}
                | Raise (Exception e) =>
                    let '(hover, labels') := overlay ∅ labels in
                    finish [lit "Failed to read events CSV: " ++ e] hover labels'
                | Ok events_by_label =>
                    let '(hover, labels') := overlay events_by_label labels in
                    finish [] hover labels'
                end
            end
        end
  end.

(** ** The hover resolver ([update_annot], [on_move]) *)

Inductive pyval :=
  | VInt (z : Z)
  | VFloat (x : float)
  | VNone.

(** The one [Annotation] of the figure. *)
Record annotation := {
  xy : pyval * pyval;
  text : str;
  visible : bool;
}.

(** Lines 117 to 125: the annotation as [main] creates it. *)
Definition initial_annot : annotation :=
  {| xy := (VInt 0, VInt 0); text := []; visible := false |}.

(** The second component of what [contains] returns: anything that is not
    a [dict], or a [dict] with or without the key ["ind"]. *)
Inductive hit_info :=
  | NotADict
  | Dict (ind : option (list Z)).

Inductive contains_result :=
  | ContainsRaises
  | Contains (hit : bool) (info : hit_info).

(** A [motion_notify_event].  [hit_test a] is what [a.contains(event)]
    does for this event. *)
Record event := {
  inaxes : bool;                 (* [event.inaxes == ax] *)
  xdata : option float;
  ydata : option float;
  hit_test : artist → contains_result;
}.

(** The calls the handler makes on the artists, the annotation and the
    canvas. *)
Inductive call :=
  | CallContains (a : artist)
  | SetXY (p : pyval * pyval)
  | SetText (s : str)
  | SetVisible (b : bool)
  | DrawIdle.

Definition opt_float (x : option float) : pyval :=
  match x with
  | Some v => VFloat v
  | None => VNone
  end.

Definition nl : str := [10%N].

(** [ln.get_xdata(orig=False)] and [ln.get_ydata(orig=False)]: the data
    of a line as arrays of [numpy.float64].  The times are floats as they
    were plotted; the amounts were plotted as [int]s and are held
    converted, rounded where a float cannot hold them.  The amounts are
    taken to be within the range of a float: numpy refuses an [int] of
    2^1024 and more. *)
Definition get_xdata (ln : line) : list float := line_x ln.
Definition get_ydata (ln : line) : list float := of_int <$> line_y ln.

Definition update_annot (ln : line) (x y : float) : annotation * list call :=
  let txt := line_label ln ++ lit ": " ++ float_str y ++ nl
             ++ lit "@ t=" ++ format_3f x in
  ({| xy := (VFloat x, VFloat y); text := txt; visible := true |},
   [SetXY (VFloat x, VFloat y); SetText txt; SetVisible true]).

(** Lines 140 to 143 and 165 to 168: an exception of [contains] counts as
    no hit. *)
Definition probe (ev : event) (a : artist) : bool * hit_info :=
  match hit_test ev a with
  | ContainsRaises => (false, Dict None)
  | Contains hit info => (hit, info)
  end.

(** Lines 147 to 151: the index the hit test reports, if any. *)
Definition reported_index (info : hit_info) : option Z :=
  match info with
  | Dict (Some (i :: _)) => Some i
  | _ => None
  end.

(** Lines 153 to 157. *)
Definition fallback_index (xd : list float) (px : option float) : Z :=
  match px with
  | None => 0
  | Some x =>
      match bisect_left float_lt xd x with
      | Some i => Z.max 0 (Z.min (Z.of_nat (length xd) - 1) (Z.of_nat i))
      | None => 0
      end
  end.

Definition sample_index (ln : line) (info : hit_info) (ev : event) : Z :=
  match reported_index info with
  | Some i => i
  | None => fallback_index (get_xdata ln) (xdata ev)
  end.

(** Lines 145 to 162, for a line that is hit. *)
Definition show_sample (ln : line) (info : hit_info) (ev : event)
  : list call * result annotation :=
  let xd := get_xdata ln in
  let yd := get_ydata ln in
  let i := sample_index ln info ev in
  match py_index xd i, py_index yd i with
  | Some x, Some y =>
      let '(annot, calls) := update_annot ln x y in
      (calls ++ [DrawIdle], Ok annot)
  | _, _ => ([], Raise IndexError)
  end.

(** Lines 170 to 174, for a marker that is hit. *)
Definition show_marker (m : marker) (ev : event) : list call * annotation :=
  let p := (opt_float (xdata ev), opt_float (ydata ev)) in
  let txt := marker_label m ++ nl ++ lit "@ t=" ++ format_3f (marker_time m) in
  ([SetXY p; SetText txt; SetVisible true; DrawIdle],
   {| xy := p; text := txt; visible := true |}).

(** Lines 134 to 136 and 175 to 177. *)
Definition hide (annot : annotation) : list call * annotation :=
  if visible annot
  then ([SetVisible false; DrawIdle],
        {| xy := xy annot; text := text annot; visible := false |})
  else ([], annot).

(** The loop over [hover_events] and what follows it. *)
Fixpoint markers_loop (ms : list marker) (ev : event) (annot : annotation)
  : list call * result annotation :=
  match ms with
  | [] => let '(calls, annot') := hide annot in (calls, Ok annot')
  | m :: ms' =>
      let '(hit, _) := probe ev (AMarker m) in
      if hit then
        let '(calls, annot') := show_marker m ev in
        (CallContains (AMarker m) :: calls, Ok annot')
      else
        let '(calls, r) := markers_loop ms' ev annot in
        (CallContains (AMarker m) :: calls, r)
  end.

(** The loop over [lines] and what follows it. *)
Fixpoint lines_loop (ls : list line) (ms : list marker) (ev : event)
    (annot : annotation) : list call * result annotation :=
  match ls with
  | [] => markers_loop ms ev annot
  | ln :: ls' =>
      let '(hit, info) := probe ev (ALine ln) in
      if hit then
        let '(calls, r) := show_sample ln info ev in
        (CallContains (ALine ln) :: calls, r)
      else
        let '(calls, r) := lines_loop ls' ms ev annot in
        (CallContains (ALine ln) :: calls, r)
  end.

(** [on_move(event)]: the calls it makes, and the annotation afterwards
    or the exception that escapes. *)
Definition on_move (sc : scene) (ev : event) (annot : annotation)
  : list call * result annotation :=
  if negb (inaxes ev) then
    let '(calls, annot') := hide annot in (calls, Ok annot')
  else lines_loop (lines sc) (hover_events sc) ev annot.

(** *** Reading a run of the handler *)

(** The artists in the order the handler goes through them. *)
Definition artists (sc : scene) : list artist :=
  (ALine <$> lines sc) ++ (AMarker <$> hover_events sc).

Definition is_hit (ev : event) (a : artist) : bool := (probe ev a).1.

(** The artists up to and including the first one that is hit. *)
Fixpoint up_to_first_hit (ev : event) (l : list artist) : list artist :=
  match l with
  | [] => []
  | a :: l' => if is_hit ev a then [a] else a :: up_to_first_hit ev l'
  end.

(** The artists probed, in order. *)
Fixpoint probed (calls : list call) : list artist :=
  match calls with
  | [] => []
  | CallContains a :: cs => a :: probed cs
  | _ :: cs => probed cs
  end.

(** The other calls, in order. *)
Fixpoint effects (calls : list call) : list call :=
  match calls with
  | [] => []
  | CallContains _ :: cs => effects cs
  | c :: cs => c :: effects cs
  end.

End Program.

(** ** Readings of strings, rows and handler runs *)

(** [s] is empty or begins with a character that is no whitespace. *)
Definition starts_clean (s : str) : bool :=
  match s with
  | [] => true
  | c :: _ => negb (isspace c)
  end.

(** [s] consists of whitespace only. *)
Definition all_space (s : str) : bool := forallb isspace s.

(** What [read_events] raises for an incomplete header (line 29). *)
Definition events_exit : exc :=
  SystemExit (inr (lit "Events CSV missing required headers months,event")).

Section Readings.
Context `{Runtime}.

(** The normalized label and the time of every row the events loader
    keeps, in row order. *)
Definition accepted (rs : list row) : list (str * float) :=
  omap (λ r, e ← event_of_row r; key ← normalize e.2; Some (key, e.1)) rs.

(** The occurrences held by an event index, as label and time. *)
Definition occurrences (m : gmap str (list float)) : list (str * float) :=
  map_to_list m ≫= λ it, (λ t, (it.1, t)) <$> it.2.

(** The event in which a [contains] that raises reports no hit instead. *)
Definition quiet (ev : event) : event :=
  {| inaxes := inaxes ev; xdata := xdata ev; ydata := ydata ev;
     hit_test := λ a, match hit_test ev a with
                      | ContainsRaises => Contains false (Dict None)
                      | r => r
                      end |}.

(** The index a line reports for this event is one its arrays have. *)
Definition index_in_range (ev : event) (ln : line) : Prop :=
  ∀ r, reported_index (probe ev (ALine ln)).2 = Some r →
       (- Z.of_nat (length (line_x ln)) ≤ r < Z.of_nat (length (line_x ln)))%Z.

End Readings.

(** ** A runtime for the examples

    Binary64 floats with their comparison.  [float()], the formatting and
    [str()] are tabulated on the values the examples use, [int()] is given
    on plain decimal numerals and the conversion of an [int] to a float on
    the [int]s below 2^63 in magnitude, with the results Python and numpy
    have for them.  Nothing is stated about other strings and values: the
    general theorems do not use this runtime.

    [sorted] is what [list.sort] of CPython (up to version 3.12) does with
    fewer than 64 elements: [count_run] finds the run the list begins with
    and turns it round if it goes down, then [binarysort] inserts the
    remaining elements one after the other, each at the place a bisection
    finds.  Longer lists go through the same steps here, which gives what
    [list.sort] gives whenever [<] orders the elements. *)

Section ListSort.
Context {A : Type} (lt : A → A → bool).

(** The number of elements of [l] that carry on a run whose last element
    is [prev]: going down, each is smaller than the one before it; going
    up, none is. *)
Fixpoint run_length (down : bool) (prev : A) (l : list A) : nat :=
  match l with
  | [] => 0
  | x :: r => if eqb (lt x prev) down then S (run_length down x r) else 0
  end.

(** The run the list begins with, turned round if it goes down, and the
    rest of the list. *)
Definition leading_run (l : list A) : list A * list A :=
  match l with
  | x :: y :: r =>
      let down := lt y x in
      let n := 2 + run_length down y r in
      (if down then reverse (take n l) else take n l, drop n l)
  | _ => (l, [])
  end.

(** One step of [binarysort]: the pivot goes behind the elements it is not
    smaller than, as far as the bisection sees. *)
Definition binary_insert (pivot : A) (a : list A) : list A :=
  let k := default (length a) (bisect_left (λ v x, negb (lt x v)) a pivot) in
  take k a ++ pivot :: drop k a.

Definition list_sort (l : list A) : list A :=
  let '(run, rest) := leading_run l in
  fold_left (λ acc x, binary_insert x acc) rest run.

End ListSort.

(** *** Insertion and bisection *)

Section SortingFacts.
Context {A : Type} (lt : A → A → bool).
Implicit Types (l : list A) (x y : A).

Lemma insert_sorted_perm x l : insert_sorted lt x l ≡ₚ x :: l.
Proof.
  induction l as [|y l IH]; simpl; [done|].
  destruct (lt x y); [done|]. rewrite IH. apply Permutation_swap.
Qed.

Lemma fold_insert_perm l acc :
  fold_left (λ acc x, insert_sorted lt x acc) l acc ≡ₚ l ++ acc.
Proof.
  revert acc. induction l as [|x l IH]; intros acc; simpl; [done|].
  rewrite IH, insert_sorted_perm. by rewrite Permutation_middle.
Qed.

Lemma weak_order_on_subseteq l l' :
  l' ⊆ l → weak_order_on lt l → weak_order_on lt l'.
Proof. intros Hsub Hw x y z Hx Hy Hz. apply Hw; by apply Hsub. Qed.

Lemma is_run_ascending l :
  weak_order_on lt l → is_run lt l = true → ascending lt l.
Proof.
  unfold ascending. induction l as [|x l IH]; intros Hw Hrun; [constructor|].
  assert (Hl : StronglySorted (not_greater lt) l).
  { apply IH.
    - eapply weak_order_on_subseteq; [|done]. set_solver.
    - destruct l; [done|]. simpl in Hrun. by apply andb_true_iff in Hrun as [_ ?]. }
  constructor; [done|].
  destruct l as [|y l]; [constructor|].
  simpl in Hrun. apply andb_true_iff in Hrun as [Hxy _].
  apply negb_true_iff in Hxy.
  apply StronglySorted_inv in Hl as [_ Hy].
  constructor; [done|].
  apply Forall_forall. intros z Hz.
  rewrite Forall_forall in Hy.
  refine (proj2 (Hw x y z _ _ _) Hxy (Hy z Hz)); set_solver.
Qed.

Lemma insert_sorted_ascending x l :
  weak_order_on lt (x :: l) → ascending lt l → ascending lt (insert_sorted lt x l).
Proof.
  unfold ascending. intros Hw. induction 1 as [|y l Hl IH Hy]; simpl.
  { repeat constructor. }
  destruct (lt x y) eqn:Hxy.
  - assert (Hyx : not_greater lt x y).
    { refine (proj1 (Hw x y y _ _ _) Hxy); set_solver. }
    constructor; [by constructor|]. constructor; [done|].
    apply Forall_forall. intros z Hz. rewrite Forall_forall in Hy.
    refine (proj2 (Hw x y z _ _ _) Hyx (Hy z Hz)); set_solver.
  - constructor.
    + apply IH. eapply weak_order_on_subseteq; [|done]. set_solver.
    + rewrite insert_sorted_perm. by constructor.
Qed.

Lemma fold_insert_ascending l acc :
  weak_order_on lt (l ++ acc) → ascending lt acc →
  ascending lt (fold_left (λ acc x, insert_sorted lt x acc) l acc).
Proof.
  revert acc. induction l as [|x l IH]; intros acc Hw Hacc; simpl; [done|].
  apply IH.
  - eapply weak_order_on_subseteq; [|done].
    intros z. rewrite !elem_of_app, insert_sorted_perm. set_solver.
  - apply insert_sorted_ascending; [|done].
    eapply weak_order_on_subseteq; [|done]. set_solver.
Qed.

Lemma insertion_sort_ascending l :
  weak_order_on lt l → ascending lt (insertion_sort lt l).
Proof.
  intros Hw. apply fold_insert_ascending; [by rewrite app_nil_r | constructor].
Qed.

(** An element that is not smaller than any of a list goes to its end. *)
Lemma insert_sorted_last x l :
  Forall (λ y, lt x y = false) l → insert_sorted lt x l = l ++ [x].
Proof.
  induction 1 as [|y l Hy _ IH]; simpl; [done|]. by rewrite Hy, IH.
Qed.

Lemma StronglySorted_lookup (R : A → A → Prop) (a : list A) i j u v :
  StronglySorted R a → a !! i = Some u → a !! j = Some v → i < j → R u v.
Proof.
  intros Hs. revert i j. induction Hs as [|w a Hs IH Hw]; intros i j; [done|].
  destruct j as [|j]; [lia|]. destruct i as [|i]; simpl.
  - intros [= ->] Hv _. rewrite Forall_forall in Hw.
    apply Hw. by eapply list_elem_of_lookup_2.
  - intros Hu Hv ?. apply (IH i j); [done..|lia].
Qed.

(** The insertion sort leaves a run of ordered elements as it is. *)
Lemma fold_insert_run l acc :
  weak_order_on lt (acc ++ l) → is_run lt (acc ++ l) = true →
  fold_left (λ acc x, insert_sorted lt x acc) l acc = acc ++ l.
Proof.
  revert acc. induction l as [|x l IH]; intros acc Hw Hrun; simpl.
  { by rewrite app_nil_r. }
  rewrite insert_sorted_last.
  - rewrite IH; rewrite <-?app_assoc; done.
  - pose proof (is_run_ascending _ Hw Hrun) as Hasc.
    apply Forall_forall. intros y Hy.
    apply list_elem_of_lookup in Hy as [i Hi].
    pose proof (lookup_lt_Some _ _ _ Hi) as Hlen.
    apply (StronglySorted_lookup _ (acc ++ x :: l) i (length acc) y x Hasc);
      [by rewrite lookup_app_l | by rewrite lookup_app_r, Nat.sub_diag by lia
      | done].
Qed.

Lemma insertion_sort_run l :
  weak_order_on lt l → is_run lt l = true → insertion_sort lt l = l.
Proof. intros Hw Hrun. by apply (fold_insert_run l []). Qed.

Lemma midpoint_bounds lo hi : lo < hi → lo ≤ (lo + hi) `div` 2 < hi.
Proof.
  intros Hlt. split.
  - apply Nat.div_le_lower_bound; lia.
  - apply Nat.div_lt_upper_bound; lia.
Qed.

End SortingFacts.

Section BisectFacts.
Context {A : Type} (lt : A → A → bool).
Implicit Types (a : list A) (x : A).



(** When the elements smaller than [x] are exactly those before index [k],
    the loop finds [k]. *)
Lemma bisect_loop_partition fuel a x lo hi k :
  (∀ i v, a !! i = Some v → i < k → lt v x = true) →
  (∀ i v, a !! i = Some v → k ≤ i → lt v x = false) →
  lo ≤ k ≤ hi → hi ≤ length a → hi - lo < fuel →
  bisect_loop lt fuel a x lo hi = Some k.
Proof.
  intros Hbelow Habove. revert lo hi.
  induction fuel as [|fuel IH]; intros lo hi Hk Hhi Hfuel; [lia|].
  cbn [bisect_loop]. destruct (lo <? hi) eqn:Hlt.
  - apply Nat.ltb_lt in Hlt.
    pose proof (midpoint_bounds lo hi Hlt) as [Hm1 Hm2].
    destruct (lookup_lt_is_Some_2 a ((lo + hi) `div` 2)) as [v Hv]; [lia|].
    cbv zeta. rewrite Hv. cbn [mbind option_bind]. destruct (lt v x) eqn:Hvx.
    + apply IH; [|lia..]. split; [|lia].
      destruct (decide ((lo + hi) `div` 2 < k)); [lia|].
      rewrite (Habove _ _ Hv) in Hvx by lia. done.
    + apply IH; [|lia..]. split; [lia|].
      destruct (decide (k ≤ (lo + hi) `div` 2)); [done|].
      rewrite (Hbelow _ _ Hv) in Hvx by lia. done.
  - apply Nat.ltb_ge in Hlt. f_equal. lia.
Qed.


End BisectFacts.

(** *** The sort of short lists obeys the three facts of [sorted] *)

Section ListSortFacts.
Context {A : Type} (lt : A → A → bool).
Implicit Types (l acc : list A) (x y : A).

Lemma binary_insert_perm x acc : binary_insert lt x acc ≡ₚ x :: acc.
Proof.
  unfold binary_insert. cbv zeta.
  by rewrite <-Permutation_middle, take_drop.
Qed.

Lemma fold_binary_insert_perm l acc :
  fold_left (λ acc x, binary_insert lt x acc) l acc ≡ₚ l ++ acc.
Proof.
  revert acc. induction l as [|x l IH]; intros acc; simpl; [done|].
  rewrite IH, binary_insert_perm. by rewrite Permutation_middle.
Qed.

Lemma leading_run_perm l : (leading_run lt l).1 ++ (leading_run lt l).2 ≡ₚ l.
Proof.
  destruct l as [|x [|y r]]; [done..|]. unfold leading_run. cbv zeta.
  destruct (lt y x); cbn [fst snd];
    rewrite ?reverse_Permutation; by rewrite take_drop.
Qed.

Lemma list_sort_perm l : list_sort lt l ≡ₚ l.
Proof.
  unfold list_sort. pose proof (leading_run_perm l) as Hl.
  destruct (leading_run lt l) as [run rest]. simpl in Hl.
  rewrite fold_binary_insert_perm. by rewrite Permutation_app_comm.
Qed.

Lemma run_length_is_run x l :
  is_run lt (x :: l) = true → run_length lt false x l = length l.
Proof.
  revert x. induction l as [|y l IH]; intros x Hrun; [done|].
  cbn [is_run] in Hrun. apply andb_true_iff in Hrun as [Hyx Hrun].
  apply negb_true_iff in Hyx. cbn [run_length]. rewrite Hyx. simpl.
  by rewrite IH.
Qed.

Lemma list_sort_run l : is_run lt l = true → list_sort lt l = l.
Proof.
  intros Hrun. unfold list_sort.
  destruct l as [|x [|y r]]; [done..|].
  unfold leading_run. cbv zeta.
  pose proof Hrun as Hrun'. cbn [is_run] in Hrun'.
  apply andb_true_iff in Hrun' as [Hyx Hrun'].
  apply negb_true_iff in Hyx. rewrite Hyx.
  rewrite (run_length_is_run y r Hrun').
  change (2 + length r) with (length (x :: y :: r)).
  by rewrite firstn_all, drop_all.
Qed.

(** In an ascending list of ordered elements, linear insertion puts an
    element before the first greater one, and from there on all are
    greater. *)
Lemma insert_sorted_position x acc :
  weak_order_on lt (x :: acc) → ascending lt acc →
  ∃ k, k ≤ length acc
       ∧ insert_sorted lt x acc = take k acc ++ x :: drop k acc
       ∧ (∀ i v, acc !! i = Some v → i < k → lt x v = false)
       ∧ (∀ i v, acc !! i = Some v → k ≤ i → lt x v = true).
Proof.
  unfold ascending. intros Hw Hasc. induction Hasc as [|y acc Hasc IH Hy].
  { exists 0. split; [done|]. split; [done|]. split; intros i v; done. }
  simpl. destruct (lt x y) eqn:Hxy.
  - exists 0. split; [lia|]. split; [done|]. split; [intros; lia|].
    intros [|i] v Hv _; simpl in Hv; [by injection Hv as <-|].
    rewrite Forall_forall in Hy.
    assert (Hvin : v ∈ acc) by (by eapply list_elem_of_lookup_2).
    specialize (Hy v Hvin). apply not_false_iff_true. intros Hxv.
    assert (Hng : not_greater lt y x).
    { refine (proj2 (Hw y v x _ _ _) Hy Hxv); set_solver. }
    unfold not_greater in Hng. congruence.
  - destruct IH as (k & Hk & Hins & Hbelow & Habove).
    { eapply weak_order_on_subseteq; [|done]. set_solver. }
    exists (S k). split; [simpl; lia|]. split; [simpl; by rewrite Hins|].
    split.
    + intros [|i] v Hv Hi; simpl in Hv; [by injection Hv as <-|].
      apply (Hbelow i v Hv). lia.
    + intros [|i] v Hv Hi; [lia|]. simpl in Hv. apply (Habove i v Hv). lia.
Qed.

Lemma binary_insert_sorted x acc :
  weak_order_on lt (x :: acc) → ascending lt acc →
  binary_insert lt x acc = insert_sorted lt x acc.
Proof.
  intros Hw Hasc.
  destruct (insert_sorted_position x acc Hw Hasc)
    as (k & Hk & -> & Hbelow & Habove).
  unfold binary_insert, bisect_left. cbv zeta.
  rewrite (bisect_loop_partition _ _ acc x 0 (length acc) k); [done| | |lia..].
  - intros i v Hv Hi. by rewrite (Hbelow i v Hv Hi).
  - intros i v Hv Hi. by rewrite (Habove i v Hv Hi).
Qed.

Lemma fold_binary_insert_sorted l acc :
  weak_order_on lt (l ++ acc) → ascending lt acc →
  fold_left (λ acc x, binary_insert lt x acc) l acc
  = fold_left (λ acc x, insert_sorted lt x acc) l acc.
Proof.
  revert acc. induction l as [|x l IH]; intros acc Hw Hacc; simpl; [done|].
  rewrite binary_insert_sorted; [|eapply weak_order_on_subseteq; [|done]; set_solver|done].
  apply IH.
  - eapply weak_order_on_subseteq; [|done].
    intros z. rewrite !elem_of_app, insert_sorted_perm. set_solver.
  - apply insert_sorted_ascending; [|done].
    eapply weak_order_on_subseteq; [|done]. set_solver.
Qed.

(** The run that goes up is a run. *)
Lemma take_run_length_is_run x l :
  is_run lt (x :: take (run_length lt false x l) l) = true.
Proof.
  revert x. induction l as [|y l IH]; intros x; [done|].
  cbn [run_length]. destruct (lt y x) eqn:Hyx; simpl; [done|].
  rewrite Hyx. simpl. apply IH.
Qed.

(** The insertion sort turns the run that goes down round. *)
Lemma fold_insert_down x l acc :
  fold_left (λ acc x, insert_sorted lt x acc)
            (take (run_length lt true x l) l) (x :: acc)
  = reverse (take (run_length lt true x l) l) ++ x :: acc.
Proof.
  revert x acc. induction l as [|y l IH]; intros x acc; [done|].
  cbn [run_length]. destruct (lt y x) eqn:Hyx; simpl; [|done].
  rewrite Hyx, IH, reverse_cons, <-app_assoc. done.
Qed.

Lemma leading_run_sorted l :
  weak_order_on lt l →
  ∃ pre, l = pre ++ (leading_run lt l).2
         ∧ (leading_run lt l).1 = insertion_sort lt pre.
Proof.
  intros Hw. destruct l as [|x [|y r]];
    [by exists [] | by exists [x] |].
  unfold leading_run. cbv zeta. cbn [fst snd].
  exists (take (2 + run_length lt (lt y x) y r) (x :: y :: r)).
  split; [by rewrite take_drop|].
  destruct (lt y x) eqn:Hyx.
  - cbn [Nat.add take]. unfold insertion_sort. cbn [fold_left insert_sorted].
    rewrite Hyx, fold_insert_down. by rewrite !reverse_cons, <-!app_assoc.
  - symmetry. apply insertion_sort_run.
    + eapply weak_order_on_subseteq; [|done]. apply subseteq_take.
    + cbn [Nat.add take is_run]. rewrite Hyx. apply take_run_length_is_run.
Qed.

Lemma list_sort_stable l :
  weak_order_on lt l → list_sort lt l = insertion_sort lt l.
Proof.
  intros Hw. destruct (leading_run_sorted l Hw) as (pre & Hl & Hrun).
  unfold list_sort. destruct (leading_run lt l) as [run rest].
  cbn [fst snd] in Hl, Hrun. subst run.
  assert (Hsplit : insertion_sort lt l
                   = fold_left (λ acc x, insert_sorted lt x acc) rest
                       (insertion_sort lt pre)).
  { rewrite Hl. unfold insertion_sort. by rewrite fold_left_app. }
  rewrite Hsplit.
  apply fold_binary_insert_sorted.
  - eapply weak_order_on_subseteq; [|done]. rewrite Hl.
    intros z. unfold insertion_sort.
    rewrite !elem_of_app, fold_insert_perm, app_nil_r. tauto.
  - apply insertion_sort_ascending.
    eapply weak_order_on_subseteq; [|done]. rewrite Hl. set_solver.
Qed.

End ListSortFacts.

(** *** The runtime, and the files, scenes and events of the examples *)

Module Sample.
Import PrimFloat.

Definition float_table : list (str * PrimFloat.float) :=
  [(lit "0", 0%float); (lit "1", 1%float); (lit "2", 2%float);
   (lit "0.0", 0%float); (lit "1.0", 1%float); (lit "2.0", 2%float);
   (lit "0.5", 0.5%float); (lit "1.5", 1.5%float); (lit "nan", nan)].

Definition format_table : list (PrimFloat.float * str) :=
  [(0%float, lit "0.000"); (1%float, lit "1.000"); (2%float, lit "2.000");
   (0.5%float, lit "0.500"); (1.5%float, lit "1.500")].

Definition sample_float (s : str) : option PrimFloat.float :=
  snd <$> find (λ kv, bool_decide (kv.1 = s)) float_table.

Definition sample_format (x : PrimFloat.float) : str :=
  default (lit "nan")
    (snd <$> find (λ kv, PrimFloat.eqb kv.1 x) format_table).

Definition str_table : list (PrimFloat.float * str) :=
  [(0%float, lit "0.0"); (2%float, lit "2.0"); (5%float, lit "5.0");
   (10%float, lit "10.0");
   (9007199254740992%float, lit "9007199254740992.0")].

Definition sample_str (x : PrimFloat.float) : str :=
  default (lit "nan")
    (snd <$> find (λ kv, PrimFloat.eqb kv.1 x) str_table).

(** Rounded to the nearest float, to the even one of two that are equally
    near. *)
Definition sample_of_int (z : Z) : PrimFloat.float :=
  if (0 <=? z)%Z then PrimFloat.of_uint63 (Uint63.of_Z z)
  else PrimFloat.opp (PrimFloat.of_uint63 (Uint63.of_Z (- z))).

(** Decimal digits with an optional sign. *)
Fixpoint digits_value (s : str) (acc : Z) : option Z :=
  match s with
  | [] => Some acc
  | c :: r =>
      if (48 <=? c)%N && (c <=? 57)%N
      then digits_value r (10 * acc + Z.of_N (c - 48))%Z
      else None
  end.

Definition sample_int (s : str) : option Z :=
  match s with
  | [] => None
  | c :: r =>
      if (c =? ch "-")%N
      then match r with [] => None | _ => Z.opp <$> digits_value r 0%Z end
      else digits_value s 0%Z
  end.

(** A file as [csv.reader] reads it. *)
Definition file (records : list (list string)) : table :=
  map (map lit) records.

Definition two_sowings : table :=
  file [["months"; "event"];
        ["1.0"; "Farm(Sow{})"];
        ["1.0"; "Farm(Sow{})"]]%string.


(** The trace of the end-to-end example of the specification. *)
Definition trace_file : table :=
  file [["months"; "wheat"; "flour"; "bread"];
        ["0"; "0"; "0"; "0"];
        ["1"; "10"; "5"; "2"];
        ["2"; "10"; "5"; "2"]]%string.


(** An events file whose header lacks [event]. *)
Definition events_without_event_header : table :=
  file [["months"; "label"];
        ["1.0"; "Mill(Grind{})"]]%string.

(** The files of a directory, by name. *)
Definition disk (files : list (str * table)) : str → table + str :=
  λ path,
    match find (λ f, bool_decide (f.1 = path)) files with
    | Some f => inl f.2
    | None => inr (lit "[Errno 2] No such file or directory")
    end.

#[export] Instance ieee : Runtime :=
  Build_Runtime PrimFloat.float PrimFloat.ltb sample_float sample_int
                sample_format sample_of_int sample_str
                (@list_sort) (@list_sort_perm) (@list_sort_run)
                (@list_sort_stable).

(** [plot_csv.py trace.csv --show --events events.csv] in a directory
    with the two files. *)
Definition plot_with_events (trace_csv events_csv : table) : run :=
  main {| open_csv := disk [(lit "trace.csv", trace_csv);
                            (lit "events.csv", events_csv)];
          import_error := None |}
       {| csv := lit "trace.csv"; out := None; show := true;
          events := Some (lit "events.csv");
          title := lit "Stronghold Bread Pipeline" |}.


Definition scene_of (r : run) : scene :=
  match outcome r with
  | Ok sc => sc
  | Raise _ => {| lines := []; hover_events := []; legend := []; plot_title := [] |}
  end.


(** Three occurrences of one label, the second at the time [nan]. *)
Definition events_with_nan : table :=
  file [["months"; "event"];
        ["2.0"; "Farm(Sow{})"];
        ["nan"; "Farm(Sow{})"];
        ["1.0"; "Farm(Sow{})"]]%string.

(** Two labels, one of them beginning with an underscore. *)
Definition events_with_underscore : table :=
  file [["months"; "event"];
        ["1.0"; "_hidden"];
        ["2.0"; "Farm(Sow{})"]]%string.

Definition events_out_of_order : table :=
  file [["months"; "event"];
        ["2.0"; "Mill(Grind{})"];
        ["1.0"; "Farm(Sow{})"];
        ["0.5"; "Mill(Grind{})"]]%string.

Definition miss : contains_result := Contains false (Dict None).

(** The pointer at [(x, y)] inside the axes, within the pick radius of the
    line called [label] and of no other line; [info] is what [contains]
    reports with the hit. *)
Definition pointer_near_line (x y : PrimFloat.float) (label : str)
    (info : hit_info) : event :=
  {| inaxes := true; xdata := Some x; ydata := Some y;
     hit_test := λ a, match a with
                      | ALine l =>
                          if bool_decide (line_label l = label)
                          then Contains true info else miss
                      | AMarker _ => miss
                      end |}.

(** The pointer inside the axes, away from every artist. *)
Definition pointer_far (x y : PrimFloat.float) : event :=
  {| inaxes := true; xdata := Some x; ydata := Some y; hit_test := λ _, miss |}.

Definition example_scene : scene :=
  scene_of (plot_with_events trace_file events_out_of_order).
Definition nan_scene : scene :=
  scene_of (plot_with_events trace_file events_with_nan).
Definition underscore_scene : scene :=
  scene_of (plot_with_events trace_file events_with_underscore).

(** The pointer at [(1.5, 5)] in [example_scene]: on the step of Flour
    that begins at its second sample, which is the one [contains] reports,
    and far from Wheat and Bread. *)
Definition on_flour : event :=
  pointer_near_line 1.5 5 (lit "Flour") (Dict (Some [1%Z])).


(** The lines of [example_scene] and the first line of [large_scene]. *)
Definition wheat_line : line :=
  {| line_label := lit "Wheat"; line_x := [0; 1; 2]%float; line_y := [0; 10; 10]%Z |}.
Definition flour_line : line :=
  {| line_label := lit "Flour"; line_x := [0; 1; 2]%float; line_y := [0; 5; 5]%Z |}.
Definition bread_line : line :=
  {| line_label := lit "Bread"; line_x := [0; 1; 2]%float; line_y := [0; 2; 2]%Z |}.

Definition shown : annotation :=
  {| xy := (VFloat 1%float, VFloat 5%float);
     text := lit "Flour: 5.0" ++ nl ++ lit "@ t=1.000";
     visible := true |}.

(** The run behind [example_scene], as world and arguments. *)
Definition example_world : world :=
  {| open_csv := disk [(lit "trace.csv", trace_file);
                       (lit "events.csv", events_out_of_order)];
     import_error := None |}.

Definition example_args : args :=
  {| csv := lit "trace.csv"; out := None; show := true;
     events := Some (lit "events.csv");
     title := lit "Stronghold Bread Pipeline" |}.

(** A trace header with the columns in another order and one more
    column, and a record under it. *)
Definition shuffled_header : list str :=
  [lit "bread"; lit "months"; lit "note"; lit "wheat"; lit "flour"].
Definition shuffled_record : record :=
  [lit "2"; lit "1"; lit "x"; lit "10"; lit "5"].

(** A record with two fields beyond the header [months,event]. *)
Definition ragged_record : record :=
  [lit "1.0"; lit "Farm(Sow{})"; lit "a"; lit "b"].

(** The pointer inside the axes, with every [contains] raising. *)
Definition jammed : event :=
  {| inaxes := true; xdata := Some 1%float; ydata := Some 1%float;
     hit_test := λ _, ContainsRaises |}.

(** The pointer at [(2, 7)] in [example_scene]: on the markers at the
    time 2.0, away from the other markers and from the lines, which end
    at the amounts 10, 5 and 2 there. *)
Definition on_last_marker : event :=
  {| inaxes := true; xdata := Some 2%float; ydata := Some 7%float;
     hit_test := λ a, match a with
                      | ALine _ => miss
                      | AMarker m =>
                          if PrimFloat.eqb (marker_time m) 2
                          then Contains true (Dict (Some [0%Z])) else miss
                      end |}.

Definition sow_marker : marker :=
  {| marker_color := lit "tab:blue"; marker_label := lit "Farm.Sow";
     marker_time := 1%float |}.
Definition grind_marker (t : PrimFloat.float) : marker :=
  {| marker_color := lit "tab:orange"; marker_label := lit "Mill.Grind";
     marker_time := t |}.


End Sample.

(* ================================================================= *)
(** * Theorems *)

(** ** Strings *)

Section StrFacts.
Implicit Types (s a b : str) (c : char) (p q : char → bool).

Lemma cut_first_index c s :
  cut c s = (λ i, (take i s, drop (S i) s)) <$> first_index (is_char c) s.
Proof.
  induction s as [|x r IH]; [done|]; simpl.
  unfold is_char at 1. rewrite (N.eqb_sym c x).
  destruct (N.eqb x c); [done|].
  rewrite IH. by destruct (first_index (is_char c) r).
Qed.

Lemma rcut_last_index c s :
  rcut c s = (λ j, (take j s, drop (S j) s)) <$> last_index (is_char c) s.
Proof.
  induction s as [|x r IH]; [done|]; simpl.
  rewrite IH. destruct (last_index (is_char c) r); simpl; [done|].
  unfold is_char. rewrite (N.eqb_sym c x). by destruct (N.eqb x c).
Qed.

Lemma contains_first_index c s :
  contains c s = true ↔ is_Some (first_index (is_char c) s).
Proof.
  unfold contains, is_char. induction s as [|x r IH]; simpl.
  - split; [done|]. by intros [? ?].
  - destruct (N.eqb c x); simpl; [by split; eauto|].
    rewrite IH. split; intros [i Hi].
    + rewrite Hi. by eexists.
    + destruct (first_index _ r); [by eexists | done].
Qed.

Lemma contains_false_first_index c s :
  contains c s = false ↔ first_index (is_char c) s = None.
Proof.
  rewrite <-not_true_iff_false, contains_first_index.
  by rewrite <-eq_None_not_Some.
Qed.

Lemma split1_head c s : split1 c s !! 0 = Some (before_first (is_char c) s).
Proof.
  unfold split1, before_first. rewrite cut_first_index.
  by destruct (first_index (is_char c) s).
Qed.

Lemma split1_tail c s :
  split1 c s !! 1 = (λ i, drop (S i) s) <$> first_index (is_char c) s.
Proof.
  unfold split1. rewrite cut_first_index.
  by destruct (first_index (is_char c) s).
Qed.

Lemma rsplit1_head c s :
  rsplit1 c s !! 0
  = Some (match last_index (is_char c) s with Some j => take j s | None => s end).
Proof.
  unfold rsplit1. rewrite rcut_last_index.
  by destruct (last_index (is_char c) s).
Qed.

Lemma first_index_lt p s i : first_index p s = Some i → i < length s.
Proof.
  revert i. induction s as [|x r IH]; intros i; simpl; [done|].
  destruct (p x); [intros [= <-]; lia|].
  destruct (first_index p r) as [k|]; [|done].
  intros [= <-]. specialize (IH k eq_refl). lia.
Qed.

Lemma last_index_lt p s j : last_index p s = Some j → j < length s.
Proof.
  revert j. induction s as [|x r IH]; intros j; simpl; [done|].
  destruct (last_index p r) as [k|].
  - intros [= <-]. specialize (IH k eq_refl). lia.
  - destruct (p x); [intros [= <-]; lia | done].
Qed.

Lemma before_first_cons p x s :
  before_first p (x :: s) = if p x then [] else x :: before_first p s.
Proof.
  unfold before_first; simpl. destruct (p x); [done|].
  by destruct (first_index p s).
Qed.

Lemma before_first_or p q s :
  before_first q (before_first p s) = before_first (λ x, p x || q x) s.
Proof.
  induction s as [|x r IH]; [done|].
  rewrite !before_first_cons. destruct (p x); simpl; [done|].
  rewrite before_first_cons. destruct (q x); [done|]. by rewrite IH.
Qed.

(** Dropping a prefix shifts the last index, when it lies behind it. *)
Lemma last_index_drop p s n j :
  last_index p s = Some j → n ≤ j → last_index p (drop n s) = Some (j - n).
Proof.
  revert n j. induction s as [|x r IH]; intros n j; simpl; [done|].
  destruct n as [|n]; simpl.
  { intros ->. intros _. by rewrite Nat.sub_0_r. }
  destruct (last_index p r) as [k|] eqn:Hk.
  - intros [= <-] ?. rewrite (IH n k); [done | done | lia].
  - destruct (p x); [intros [= <-]; lia | done].
Qed.

Lemma contains_elem_of c s : contains c s = true ↔ c ∈ s.
Proof.
  unfold contains. rewrite existsb_exists, list_elem_of_In. split.
  - by intros (x & Hx & ->%N.eqb_eq).
  - intros Hc. exists c. by rewrite N.eqb_refl.
Qed.

Lemma elem_of_lstrip c s : isspace c = false → c ∈ lstrip s ↔ c ∈ s.
Proof.
  intros Hc. induction s as [|x r IH]; [done|]; simpl.
  destruct (isspace x) eqn:Hx; [|done].
  rewrite IH, elem_of_cons. split; [by right|]. intros [->|?]; [congruence|done].
Qed.

(** Trimming removes no character that is not whitespace. *)
Lemma contains_strip c s :
  isspace c = false → contains c (strip s) = contains c s.
Proof.
  intros Hc. apply eq_true_iff_eq. rewrite !contains_elem_of.
  unfold strip, rstrip.
  rewrite list_elem_of_In, <-in_rev, <-list_elem_of_In, elem_of_lstrip by done.
  rewrite list_elem_of_In, <-in_rev, <-list_elem_of_In.
  by apply elem_of_lstrip.
Qed.

End StrFacts.

(** ** The normalizer *)

Lemma nested_actor_spec s :
  nested_actor s = Some (strip (before_first (is_char (ch "(")) s)).
Proof. unfold nested_actor. by rewrite split1_head. Qed.

Lemma nested_inner_spec s : nested_inner s = inner_after_open s.
Proof.
  unfold nested_inner, inner_after_open. rewrite split1_tail.
  destruct (first_index _ s) as [i|]; simpl; [|done].
  by rewrite rsplit1_head.
Qed.

Lemma nested_variant_spec inner :
  nested_variant inner = Some (strip (before_first is_brace_or_paren inner)).
Proof.
  unfold nested_variant. rewrite split1_head. simpl. rewrite split1_head. simpl.
  by rewrite before_first_or.
Qed.

Lemma normalize_fallback_spec s :
  normalize_fallback s
  = Some (default (head_spec s) (normalize_loop known_actors (head_spec s))).
Proof.
  unfold normalize_fallback, head_spec. rewrite split1_head; simpl.
  rewrite split1_head; simpl. by rewrite before_first_or.
Qed.

Lemma normalize_loop_find names head :
  normalize_loop names head
  = (λ name, name ++ lit "." ++ drop (length name) head)
      <$> find (actor_prefix head) names.
Proof.
  induction names as [|n names IH]; [done|]; simpl.
  by destruct (actor_prefix head n).
Qed.

Lemma startswith_app s p : startswith s p = true ↔ ∃ rest, s = p ++ rest.
Proof.
  revert s. induction p as [|a p IH]; intros s; simpl.
  - split; [intros _; by exists s | done].
  - destruct s as [|b s]; [split; [done | by intros [? ?]]|].
    rewrite andb_true_iff, N.eqb_eq, IH. split.
    + intros [-> [rest ->]]. by exists rest.
    + intros [rest [= -> ->]]. split; [done | by exists rest].
Qed.

(** The shape of [normalize] once the subscripts are known to succeed. *)
Lemma normalize_unfold label :
  let s := strip label in
  normalize label =
    if contains (ch "(") s && contains (ch ")") s then
      inner ← inner_after_open s;
      let actor := strip (before_first (is_char (ch "(")) s) in
      let variant := strip (before_first is_brace_or_paren inner) in
      if bool_decide (actor ≠ []) && bool_decide (variant ≠ [])
      then Some (actor ++ lit "." ++ variant)
      else normalize_fallback s
    else normalize_fallback s.
Proof.
  intros s. unfold normalize, normalize_nested. fold s.
  destruct (contains (ch "(") s && contains (ch ")") s); [|done].
  rewrite nested_actor_spec, nested_inner_spec; simpl.
  destruct (inner_after_open s) as [inner|]; simpl; [|done].
  rewrite nested_variant_spec; simpl.
  by destruct (bool_decide _ && bool_decide _).
Qed.

Lemma inner_after_open_is_Some s :
  contains (ch "(") s = true → is_Some (inner_after_open s).
Proof.
  intros [i Hi]%contains_first_index. unfold inner_after_open.
  rewrite Hi. by eexists.
Qed.

Lemma inner_after_open_at s i :
  first_index (is_char (ch "(")) s = Some i →
  inner_after_open s
  = Some (match last_index (is_char (ch ")")) (drop (S i) s) with
          | Some j => take j (drop (S i) s)
          | None => drop (S i) s
          end).
Proof. unfold inner_after_open. by intros ->. Qed.

(** The normalizer never raises. *)
Lemma normalize_total label : is_Some (normalize label).
Proof.
  rewrite normalize_unfold. cbv zeta.
  destruct (contains (ch "(") (strip label)) eqn:Ho; cbn [andb];
    [|rewrite normalize_fallback_spec; by eexists].
  destruct (contains (ch ")") (strip label)); cbn [andb];
    [|rewrite normalize_fallback_spec; by eexists].
  destruct (inner_after_open_is_Some (strip label) Ho) as [inner ->]; simpl.
  destruct (bool_decide _ && bool_decide _); [by eexists|].
  rewrite normalize_fallback_spec; by eexists.
Qed.

Example normalize_samples :
  normalize (lit "Farm(Harvest{x:1})") = Some (lit "Farm.Harvest")
  ∧ normalize (lit "Bakery(Bake(nested))") = Some (lit "Bakery.Bake")
  ∧ normalize (lit "MillGrind") = Some (lit "Mill.Grind")
  ∧ normalize (lit "Oven") = Some (lit "Oven")
  ∧ normalize (lit " Mill ( Grind { } ) ") = Some (lit "Mill.Grind")
  ∧ str_of_nat 0 = lit "0" ∧ str_of_nat 1234 = lit "1234".
Proof. vm_compute. repeat split. Qed.

(** C2 (as amended).  For every input containing both "(" and ")", with
    [s] the trimmed input, the normalizer takes [actor] to be the trimmed
    text of [s] before the first "(", [inner] to be the text after the first "(" cut at
    the last ")" found in that text (all of it when no ")" follows), and
    [variant] to be the trimmed text of [inner] before the leftmost "{" or
    "("; [inner] is the substring between the first "(" and the last ")"
    whenever that ")" comes after that "("; with [actor] and [variant] both
    non-empty the result is "actor.variant".  The two sample labels give
    "Bakery.Bake" and "Farm.Harvest". *)
Theorem normalize_nested_pattern :
  (∀ label : str,
     let s := strip label in
     contains (ch "(") label = true → contains (ch ")") label = true →
     ∃ inner,
       inner_after_open s = Some inner
       ∧ nested_inner s = Some inner
       ∧ (∀ i j, first_index (is_char (ch "(")) s = Some i →
                 last_index (is_char (ch ")")) s = Some j →
                 i < j → inner = slice (S i) j s)
       ∧ let actor := strip (before_first (is_char (ch "(")) s) in
         let variant := strip (before_first is_brace_or_paren inner) in
         nested_actor s = Some actor
         ∧ nested_variant inner = Some variant
         ∧ (actor ≠ [] → variant ≠ [] →
            normalize label = Some (actor ++ lit "." ++ variant)))
  ∧ normalize (lit "Bakery(Bake(nested))") = Some (lit "Bakery.Bake")
  ∧ normalize (lit "Farm(Harvest{x:1})") = Some (lit "Farm.Harvest").
Proof.
  split; [|by vm_compute].
  intros label s Ho Hc.
  rewrite <-(contains_strip _ label) in Ho by done.
  rewrite <-(contains_strip _ label) in Hc by done. fold s in Ho, Hc.
  destruct (inner_after_open_is_Some s Ho) as [inner Hinner].
  exists inner. split; [done|]. split; [by rewrite nested_inner_spec|].
  split.
  - intros i j Hi Hj Hij. rewrite (inner_after_open_at s i Hi) in Hinner.
    rewrite (last_index_drop _ s (S i) j Hj) in Hinner by lia.
    by injection Hinner as <-.
  - cbv zeta. split; [apply nested_actor_spec|].
    split; [apply nested_variant_spec|].
    intros Ha Hv. rewrite normalize_unfold. cbv zeta. fold s.
    rewrite Ho, Hc, Hinner; simpl.
    by rewrite !bool_decide_true.
Qed.

Lemma normalize_nested_pattern_witness :
  normalize (lit "Farm(Sow{})") = Some (lit "Farm.Sow").
Proof.
  destruct (proj1 normalize_nested_pattern (lit "Farm(Sow{})"))
    as (inner & Hinner & _ & _ & _ & _ & Hres); [reflexivity | reflexivity |].
  vm_compute in Hinner. injection Hinner as <-.
  apply Hres; vm_compute; discriminate.
Defined.

(** C2, as stated, fails: in ")A(B" the only ")" stands before the first
    "(", no text lies between the first "(" and the last ")", yet the source
    takes [inner] = "B" and returns ")A.B", where the algorithm of the
    specification falls through to ")A". *)
Lemma nested_inner_not_between_parens :
  let s := lit ")A(B" in
  contains (ch "(") s = true ∧ contains (ch ")") s = true
  ∧ strip s = s
  ∧ between_parens_spec s = Some []
  ∧ nested_inner s = Some (lit "B")
  ∧ ¬ nested_pattern_spec s
  ∧ normalize s = Some (lit ")A.B")
  ∧ normalize_spec s = lit ")A".
Proof.
  cbv zeta. repeat split; try by vm_compute.
  intros (_ & H & _). vm_compute in H. discriminate.
Qed.

(** C3.  On the fallback path (the input lacks "(" or ")", or the nested
    pattern has an empty actor or variant) the result is computed
    from [head], the trimmed text before the leftmost "{" or "(": the
    first name of Farm, Mill, Bakery that is a proper prefix of [head]
    gives "name.rest", and [head] itself is returned when there is none.
    "MillGrind" gives "Mill.Grind" and "Oven" gives "Oven". *)
Theorem normalize_fallback_path :
  (∀ label : str,
     let s := strip label in
     let head := head_spec s in
     contains (ch "(") label = false ∨ contains (ch ")") label = false
     ∨ strip (before_first (is_char (ch "(")) s) = []
     ∨ (∃ inner, inner_after_open s = Some inner
                 ∧ strip (before_first is_brace_or_paren inner) = []) →
     normalize label
     = Some (match find (actor_prefix head) known_actors with
             | Some name => name ++ lit "." ++ drop (length name) head
             | None => head
             end)
     ∧ (∀ name rest, name ∈ known_actors → head = name ++ rest → rest ≠ [] →
        normalize label = Some (name ++ lit "." ++ rest))
     ∧ ((∀ name rest, name ∈ known_actors → head = name ++ rest → rest = []) →
        normalize label = Some head))
  ∧ known_actors = [lit "Farm"; lit "Mill"; lit "Bakery"]
  ∧ normalize (lit "MillGrind") = Some (lit "Mill.Grind")
  ∧ normalize (lit "Oven") = Some (lit "Oven").
Proof.
  split; [|by vm_compute].
  intros label s head Hpath.
  assert (Hn : normalize label
               = Some (match find (actor_prefix head) known_actors with
                       | Some name => name ++ lit "." ++ drop (length name) head
                       | None => head
                       end)).
  { rewrite normalize_unfold. cbv zeta. fold s.
    assert (Hf : normalize_fallback s
                 = Some (match find (actor_prefix head) known_actors with
                         | Some name => name ++ lit "." ++ drop (length name) head
                         | None => head
                         end)).
    { rewrite normalize_fallback_spec, normalize_loop_find. fold head.
      by destruct (find _ _). }
    rewrite <-!(contains_strip _ label) in Hpath by done. fold s in Hpath.
    destruct (contains (ch "(") s) eqn:Ho; [|done].
    destruct (contains (ch ")") s) eqn:Hc; [|done]. cbn [andb].
    destruct (inner_after_open_is_Some s Ho) as [inner Hi].
    rewrite Hi; cbn [mbind option_bind].
    destruct Hpath as [H|[H|[H|(inner' & Hi' & H)]]]; try done.
    - by rewrite H.
    - rewrite Hi in Hi'. injection Hi' as <-. rewrite H.
      by rewrite andb_false_r. }
  split; [done|]. split.
  - intros name rest Hin Hhead Hrest. rewrite Hn. f_equal.
    destruct rest as [|c rest]; [done|]. clear Hrest.
    unfold known_actors in *.
    repeat (apply elem_of_cons in Hin as [->|Hin]);
      [| | |by apply elem_of_nil in Hin];
      rewrite Hhead; unfold actor_prefix; simpl;
      rewrite ?N.eqb_refl; simpl; by rewrite ?drop_0.
  - intros Hnone. rewrite Hn. f_equal.
    assert (Hno : ∀ name, name ∈ known_actors → actor_prefix head name = false).
    { intros name Hin. unfold actor_prefix.
      destruct (startswith head name) eqn:Hs; [|done]. cbn [andb].
      apply startswith_app in Hs as [rest Hrest].
      rewrite (Hnone name rest Hin Hrest) in Hrest. rewrite Hrest, app_nil_r.
      apply Nat.ltb_irrefl. }
    unfold known_actors in *. simpl.
    rewrite !Hno; [done | | |]; repeat constructor.
Qed.

Lemma normalize_fallback_path_witness :
  normalize (lit "BakeryKnead") = Some (lit "Bakery.Knead").
Proof.
  pose proof (proj1 normalize_fallback_path (lit "BakeryKnead")) as H.
  cbv zeta in H. destruct H as (_ & H & _); [left; reflexivity|].
  apply (H (lit "Bakery") (lit "Knead"));
    [repeat constructor | reflexivity | discriminate].
Defined.

(** C9.  The normalizer is not idempotent: "MillGrind" gives "Mill.Grind",
    and "Mill.Grind" gives "Mill..Grind". *)
Theorem normalize_not_idempotent :
  normalize (lit "MillGrind") = Some (lit "Mill.Grind")
  ∧ normalize (lit "Mill.Grind") = Some (lit "Mill..Grind")
  ∧ ∃ s r, normalize s = Some r ∧ normalize r ≠ Some r.
Proof.
  split; [by vm_compute|]. split; [by vm_compute|].
  exists (lit "MillGrind"), (lit "Mill.Grind").
  split; [by vm_compute|]. vm_compute. discriminate.
Qed.

(** ** [csv.DictReader] *)

Section CsvFacts.
Implicit Types (k : str) (d : list (str * option str)).

Lemma dict_get_set k k' v d :
  dict_get k (dict_set k' v d) = if decide (k = k') then Some v else dict_get k d.
Proof.
  induction d as [|[k'' v''] d IH]; simpl.
  - by repeat case_decide.
  - repeat (case_decide; simpl; subst); try done; try congruence.
Qed.



Lemma fst_zip_take {A B} (l : list A) (r : list B) :
  (zip l r).*1 = take (length r) l.
Proof.
  revert r. induction l as [|x l IH]; intros [|y r]; simpl; [done..|].
  by rewrite IH.
Qed.



End CsvFacts.

(** ** The trace loader *)

Section LoaderFacts.
Context `{Runtime}.

Lemma trace_loop_samples rs tr :
  let out := trace_loop rs tr in
  months out = months tr ++ ((λ s, s.1.1.1) <$> samples rs)
  ∧ wheat out = wheat tr ++ ((λ s, s.1.1.2) <$> samples rs)
  ∧ flour out = flour tr ++ ((λ s, s.1.2) <$> samples rs)
  ∧ bread out = bread tr ++ ((λ s, s.2) <$> samples rs).
Proof.
  revert tr. unfold samples.
  induction rs as [|r rs IH]; intros tr; simpl.
  - by rewrite !app_nil_r.
  - destruct (sample_of_row r) as [[[[t w] fl] br]|]; simpl; [|apply IH].
    destruct (IH {| months := months tr ++ [t]; wheat := wheat tr ++ [w];
                    flour := flour tr ++ [fl]; bread := bread tr ++ [br] |})
      as (-> & -> & -> & ->); simpl.
    by rewrite <-!app_assoc.
Qed.





(** ** The events loader *)

Lemma times_for_cons key r rs :
  times_for key (r :: rs)
  = match event_of_row r with
    | Some e => if decide (normalize e.2 = Some key)
                then e.1 :: times_for key rs else times_for key rs
    | None => times_for key rs
    end.
Proof.
  unfold times_for. simpl. destruct (event_of_row r) as [e|]; simpl; [|done].
  by destruct (decide _).
Qed.

Lemma events_loop_spec rs m :
  ∃ m', events_loop rs m = Ok m'
        ∧ ∀ key, m' !! key = match times_for key rs with
                              | [] => m !! key
                              | ts => Some (default [] (m !! key) ++ ts)
                              end.
Proof.
  revert m. induction rs as [|r rs IH]; intros m.
  - by exists m.
  - simpl. setoid_rewrite times_for_cons.
    destruct (event_of_row r) as [[t label]|]; simpl; [|apply IH].
    destruct (normalize_total label) as [k Hk]. rewrite Hk.
    destruct (IH (<[k:=default [] (m !! k) ++ [t]]> m)) as (m' & -> & Hm').
    exists m'. split; [done|]. intros key. rewrite Hm'.
    destruct (decide (Some k = Some key)) as [[= ->]|Hne].
    + rewrite lookup_insert_eq. simpl.
      destruct (times_for key rs); simpl; [done|]. by rewrite <-app_assoc.
    + rewrite lookup_insert_ne by congruence. done.
Qed.





End LoaderFacts.

(** ** [main] and the events file *)

Section MainFacts.
Context `{Runtime}.

Lemma has_headers_false (required : list str) (t : table) :
  (∃ k, k ∈ required ∧ k ∉ default [] (fieldnames t)) →
  has_headers required t = false.
Proof.
  intros (k & Hk & Hnot). unfold has_headers.
  apply not_true_iff_false. rewrite forallb_forall. intros Hall.
  apply list_elem_of_In, Hall, bool_decide_eq_true in Hk. done.
Qed.

Lemma overlay_empty leg : overlay ∅ leg = ([], leg).
Proof.
  unfold overlay, sorted_items.
  by rewrite map_to_list_empty, (sorted_keeps_run _ _ [] eq_refl).
Qed.

(** The labels of the lines are entries of the legend. *)
Lemma ax_legend_lines (tr : trace) :
  ax_legend (line_label <$> plot_lines tr) = line_label <$> plot_lines tr.
Proof. unfold plot_lines. by destruct (months tr). Qed.

(** C1 (as amended).  With a readable trace file that has its headers and
    with matplotlib available, an events file that lacks the header
    [months] or the header [event] makes [read_events] raise [SystemExit]
    with its message; [main] re-raises it, so the run ends there and no
    plot is produced.  What [main] catches and logs, going on to plot
    without an overlay, is any other exception of [read_events]: the one
    of an events file that cannot be opened. *)
(** [main] once the trace is loaded and matplotlib is there, with the
    option [--events]. *)
Lemma main_with_events (w : world) (a : args) (t : table) (path : str) :
  open_csv w (csv a) = inl t →
  has_headers trace_headers t = true →
  import_error w = None →
  events a = Some path → path ≠ [] →
  main w a
  = let ls := plot_lines (load_trace t) in
    match read_events (open_csv w path) with
    | Raise (SystemExit c) => {| stderr := []; outcome := Raise (SystemExit c) |}
    | Raise (Exception e) =>
        {| stderr := [lit "Failed to read events CSV: " ++ e];
           outcome := Ok {| lines := ls;
                            hover_events := (overlay ∅ (line_label <$> ls)).1;
                            legend :=
                              ax_legend (overlay ∅ (line_label <$> ls)).2;
                            plot_title := title a |} |}
    | Ok events_by_label =>
        {| stderr := [];
           outcome := Ok {| lines := ls;
                            hover_events :=
                              (overlay events_by_label (line_label <$> ls)).1;
                            legend :=
                              ax_legend
                                (overlay events_by_label (line_label <$> ls)).2;
                            plot_title := title a |} |}
    end.
Proof.
  intros Ht Hh Himp Hev Hpath.
  unfold main. rewrite Ht, Hh, Himp, Hev. cbn [negb]. cbv zeta.
  destruct path as [|c path]; [done|].
  destruct (read_events _) as [m|[]]; [|done|]; by destruct (overlay _ _).
Qed.

(** C1 (as amended).  With a readable trace file that has its headers and
    with matplotlib available, an events file that lacks the header
    [months] or the header [event] makes [read_events] raise [SystemExit]
    with its message; [main] re-raises it, so the run ends there and no
    plot is produced.  What [main] catches and logs, going on to plot
    without an overlay, is any other exception of [read_events]: the one
    of an events file that cannot be opened. *)
Theorem events_header_error_is_fatal (w : world) (a : args) (t : table)
    (path : str) :
  open_csv w (csv a) = inl t →
  has_headers trace_headers t = true →
  import_error w = None →
  events a = Some path → path ≠ [] →
  (∀ et, open_csv w path = inl et →
         lit "months" ∉ default [] (fieldnames et)
         ∨ lit "event" ∉ default [] (fieldnames et) →
         read_events (inl et)
         = Raise (SystemExit
                    (inr (lit "Events CSV missing required headers months,event")))
         ∧ main w a
           = {| stderr := [];
                outcome :=
                  Raise (SystemExit
                           (inr (lit "Events CSV missing required headers months,event"))) |})
  ∧ (∀ msg, open_csv w path = inr msg →
            main w a
            = {| stderr := [lit "Failed to read events CSV: " ++ msg];
                 outcome :=
                   Ok {| lines := plot_lines (load_trace t);
                         hover_events := [];
                         legend := line_label <$> plot_lines (load_trace t);
                         plot_title := title a |} |}).
Proof.
  intros Ht Hh Himp Hev Hpath.
  pose proof (main_with_events w a t path Ht Hh Himp Hev Hpath) as Hmain.
  cbv zeta in Hmain. split.
  - intros et Het Hmiss.
    assert (Hr : read_events (inl et)
                 = Raise (SystemExit
                            (inr (lit "Events CSV missing required headers months,event")))).
    { unfold read_events. rewrite has_headers_false; [done|].
      destruct Hmiss as [Hm|He];
        [exists (lit "months") | exists (lit "event")];
        (split; [unfold events_headers; repeat constructor | done]). }
    split; [done|]. by rewrite Hmain, Het, Hr.
  - intros msg Hmsg. rewrite Hmain, Hmsg. cbn [read_events].
    rewrite overlay_empty. cbn [fst snd]. by rewrite ax_legend_lines.
Qed.

End MainFacts.

Lemma events_header_error_is_fatal_witness :
  Sample.plot_with_events Sample.trace_file Sample.events_without_event_header
  = {| stderr := [];
       outcome :=
         Raise (SystemExit
                  (inr (lit "Events CSV missing required headers months,event"))) |}.
Proof.
  unfold Sample.plot_with_events.
  eapply (events_header_error_is_fatal _ _ Sample.trace_file (lit "events.csv"));
    [reflexivity | reflexivity | reflexivity | reflexivity | discriminate
    | reflexivity
    | right; apply (proj1 (bool_decide_eq_false _)); vm_compute; reflexivity].
Defined.

(** C1, as stated, fails: with the header [event] missing, the run ends in
    the [SystemExit] of [read_events] and no scene is produced. *)
Lemma missing_events_header_aborts :
  has_headers trace_headers Sample.trace_file = true
  ∧ lit "event" ∉ default [] (fieldnames Sample.events_without_event_header)
  ∧ outcome (Sample.plot_with_events Sample.trace_file
                                     Sample.events_without_event_header)
    = Raise (SystemExit
               (inr (lit "Events CSV missing required headers months,event")))
  ∧ ¬ ∃ sc, outcome (Sample.plot_with_events Sample.trace_file
                                              Sample.events_without_event_header)
            = Ok sc.
Proof.
  split; [reflexivity|].
  split; [apply (proj1 (bool_decide_eq_false _)); vm_compute; reflexivity|].
  assert (Hout : outcome (Sample.plot_with_events Sample.trace_file
                            Sample.events_without_event_header)
                 = Raise (SystemExit
                     (inr (lit "Events CSV missing required headers months,event"))))
    by (by vm_compute).
  split; [done|]. intros [sc Hsc]. rewrite Hout in Hsc. discriminate.
Qed.

(** ** [sorted] *)

Section SortedFacts.
Context `{Runtime} {A : Type} (lt : A → A → bool).
Implicit Types (l : list A).

(** [sorted] returns the elements it was given. *)
Lemma py_sorted_perm l : py_sorted lt l ≡ₚ l.
Proof. apply sorted_permutes. Qed.

(** On elements that [lt] orders, [sorted] is ascending. *)
Lemma py_sorted_ascending l :
  weak_order_on lt l → ascending lt (py_sorted lt l).
Proof.
  intros Hw. rewrite sorted_is_stable by done. by apply insertion_sort_ascending.
Qed.

Lemma py_sorted_nil : py_sorted lt [] = [].
Proof. by apply sorted_keeps_run. Qed.

End SortedFacts.

(** ** The order of labels *)

Lemma str_lt_cons x a y b :
  str_lt (x :: a) (y :: b) = true ↔ (x < y)%N ∨ (x = y ∧ str_lt a b = true).
Proof. simpl. by rewrite orb_true_iff, andb_true_iff, N.ltb_lt, N.eqb_eq. Qed.

Lemma str_lt_irrefl a : str_lt a a = false.
Proof.
  induction a as [|x a IH]; [done|]. simpl.
  by rewrite N.ltb_irrefl, N.eqb_refl, IH.
Qed.

Lemma str_lt_trans a b c :
  str_lt a b = true → str_lt b c = true → str_lt a c = true.
Proof.
  revert b c. induction a as [|x a IH]; intros [|y b] [|z c]; try done.
  rewrite !str_lt_cons. intros [?|[-> ?]] [?|[-> ?]].
  - left. lia.
  - by left.
  - by left.
  - right. split; [done|]. by apply (IH b).
Qed.

Lemma str_lt_total a b : str_lt a b = true ∨ a = b ∨ str_lt b a = true.
Proof.
  revert b. induction a as [|x a IH]; intros [|y b]; [by right; left|by left|by right; right|].
  rewrite !str_lt_cons.
  destruct (N.lt_trichotomy x y) as [?|[->|?]]; [by left; left| |by right; right; left].
  destruct (IH b) as [?|[->|?]]; [by left; right|by right; left|by right; right; right].
Qed.

Section OverlayFacts.
Context `{Runtime}.
Implicit Types (items : list (str * list float)) (m : gmap str (list float)).

Lemma item_lt_weak_order items : weak_order_on item_lt items.
Proof.
  intros [a ta] [b tb] [c tc] _ _ _. unfold not_greater, item_lt; simpl. split.
  - intros Hab. apply not_true_iff_false. intros Hba.
    pose proof (str_lt_trans _ _ _ Hab Hba) as Haa.
    by rewrite str_lt_irrefl in Haa.
  - intros Hba Hcb. apply not_true_iff_false. intros Hca.
    destruct (str_lt_total a b) as [Hab|[->|Hba']]; [|congruence..].
    pose proof (str_lt_trans _ _ _ Hca Hab). congruence.
Qed.

Lemma sorted_items_perm m : sorted_items m ≡ₚ map_to_list m.
Proof. apply py_sorted_perm. Qed.

Lemma sorted_items_lookup m label times :
  (label, times) ∈ sorted_items m ↔ m !! label = Some times.
Proof. by rewrite sorted_items_perm, elem_of_map_to_list. Qed.

Lemma ascending_distinct_labels items :
  ascending item_lt items → NoDup items.*1 →
  StronglySorted (λ a b, str_lt a.1 b.1 = true) items.
Proof.
  unfold ascending. induction 1 as [|a items Hs IH Ha]; [constructor|].
  simpl. intros [Hnotin Hnd]%NoDup_cons. constructor; [by apply IH|].
  apply Forall_forall. intros b Hb. rewrite Forall_forall in Ha.
  specialize (Ha b Hb). unfold not_greater, item_lt in Ha.
  destruct (str_lt_total a.1 b.1) as [?|[Heq|?]]; [done| |congruence].
  destruct Hnotin. rewrite Heq. apply list_elem_of_fmap. by exists b.
Qed.

(** The labels of the sorted items go up strictly. *)
Lemma sorted_items_labels m :
  StronglySorted (λ a b, str_lt a.1 b.1 = true) (sorted_items m).
Proof.
  apply ascending_distinct_labels.
  - apply py_sorted_ascending, item_lt_weak_order.
  - rewrite sorted_items_perm. apply NoDup_fst_map_to_list.
Qed.

Lemma overlay_loop_spec i items hover labels :
  label_and_time <$> (overlay_loop i items hover labels).1
  = (label_and_time <$> hover)
    ++ (items ≫= λ it, (λ t, (it.1, t)) <$> py_sorted float_lt it.2)
  ∧ (overlay_loop i items hover labels).2
    = labels ++ ((λ it, stub_label it.1 it.2) <$> items).
Proof.
  revert i hover labels. induction items as [|[label times] items IH];
    intros i hover labels.
  - simpl. by rewrite !app_nil_r.
  - cbn [overlay_loop]. rewrite bind_cons, fmap_cons. cbn [fst snd].
    destruct (IH (S i)
                (hover ++ label_markers
                            (default [] (palette !! (i `mod` length palette)))
                            label times)
                (labels ++ [stub_label label times])) as [-> ->].
    split; [|by rewrite <-app_assoc].
    rewrite fmap_app, <-app_assoc. f_equal. f_equal.
    unfold label_markers. rewrite <-list_fmap_compose. done.
Qed.

(** The stub of a label is an entry of the legend unless the label begins
    with an underscore. *)
Lemma in_legend_stub label (times : list float) :
  in_legend (stub_label label times) = negb (startswith label (lit "_")).
Proof.
  unfold stub_label. destruct label as [|c label]; [done|].
  cbn. by rewrite N.eqb_sym, andb_true_r.
Qed.

Lemma ax_legend_stubs items :
  ax_legend ((λ it, stub_label it.1 it.2) <$> items)
  = (λ it, stub_label it.1 it.2)
      <$> List.filter (λ it, negb (startswith it.1 (lit "_"))) items.
Proof.
  unfold ax_legend. induction items as [|it items IH]; [done|].
  rewrite fmap_cons. cbn [List.filter]. rewrite in_legend_stub.
  destruct (negb _); [rewrite fmap_cons|]; by rewrite IH.
Qed.

End OverlayFacts.

(** ** The hover resolver *)

Section HoverFacts.
Context `{Runtime}.
Implicit Types (ev : event) (annot : annotation) (ls : list line)
  (ms : list marker).

Lemma probed_app c1 c2 : probed (c1 ++ c2) = probed c1 ++ probed c2.
Proof.
  induction c1 as [|[] c1 IH]; simpl; [done| |done..]. by rewrite IH.
Qed.

Lemma effects_app c1 c2 : effects (c1 ++ c2) = effects c1 ++ effects c2.
Proof.
  induction c1 as [|[] c1 IH]; simpl; [done|done|..]; by rewrite IH.
Qed.

Lemma probed_contains (l : list artist) : probed (CallContains <$> l) = l.
Proof. induction l as [|a l IH]; simpl; [done|]. by f_equal. Qed.

Lemma effects_contains (l : list artist) : effects (CallContains <$> l) = [].
Proof. induction l as [|a l IH]; simpl; done. Qed.

Lemma probed_hide annot : probed (hide annot).1 = [].
Proof. unfold hide. by destruct (visible annot). Qed.

Lemma py_index_fmap {B C : Type} (f : B → C) (l : list B) (i : Z) :
  py_index (f <$> l) i = f <$> py_index l i.
Proof.
  unfold py_index. rewrite length_fmap.
  destruct (_ && _); [apply list_lookup_fmap|].
  destruct (_ && _); [apply list_lookup_fmap | done].
Qed.

(** What the handler does for a line that is hit, in terms of what was
    plotted. *)
Lemma show_sample_spec ln info ev :
  show_sample ln info ev
  = match py_index (line_x ln) (sample_index ln info ev),
          py_index (line_y ln) (sample_index ln info ev) with
    | Some x, Some v =>
        let p := (VFloat x, VFloat (of_int v)) in
        let txt := line_label ln ++ lit ": " ++ float_str (of_int v) ++ nl
                   ++ lit "@ t=" ++ format_3f x in
        ([SetXY p; SetText txt; SetVisible true; DrawIdle],
         Ok {| xy := p; text := txt; visible := true |})
    | _, _ => ([], Raise IndexError)
    end.
Proof.
  unfold show_sample, get_xdata, get_ydata. cbv zeta. rewrite py_index_fmap.
  destruct (py_index (line_x ln) _); [|done].
  by destruct (py_index (line_y ln) _).
Qed.

Lemma probed_show_sample ln info ev : probed (show_sample ln info ev).1 = [].
Proof.
  rewrite show_sample_spec.
  destruct (py_index (line_x ln) _); [|done].
  by destruct (py_index (line_y ln) _).
Qed.

(** No marker is hit: every marker is probed and the annotation is hidden. *)
Lemma markers_loop_miss ms ev annot :
  Forall (λ m, is_hit ev (AMarker m) = false) ms →
  markers_loop ms ev annot
  = ((CallContains <$> (AMarker <$> ms)) ++ (hide annot).1, Ok (hide annot).2).
Proof.
  induction 1 as [|m ms Hm _ IH]; simpl.
  - by destruct (hide annot).
  - unfold is_hit in Hm. destruct (probe ev (AMarker m)) as [hit info].
    simpl in Hm. subst hit. by rewrite IH.
Qed.

(** The first marker that is hit ends the loop. *)
Lemma markers_loop_hit ms1 m ms2 ev annot :
  Forall (λ m, is_hit ev (AMarker m) = false) ms1 →
  is_hit ev (AMarker m) = true →
  markers_loop (ms1 ++ m :: ms2) ev annot
  = ((CallContains <$> (AMarker <$> ms1 ++ [m])) ++ (show_marker m ev).1,
     Ok (show_marker m ev).2).
Proof.
  intros Hms Hm. induction Hms as [|m' ms1 Hm' _ IH]; simpl.
  - unfold is_hit in Hm. destruct (probe ev (AMarker m)) as [hit info].
    simpl in Hm. by subst hit.
  - unfold is_hit in Hm'. destruct (probe ev (AMarker m')) as [hit info].
    simpl in Hm'. subst hit. by rewrite IH.
Qed.

(** No line is hit: every line is probed, then the markers. *)
Lemma lines_loop_miss ls ms ev annot :
  Forall (λ l, is_hit ev (ALine l) = false) ls →
  lines_loop ls ms ev annot
  = ((CallContains <$> (ALine <$> ls)) ++ (markers_loop ms ev annot).1,
     (markers_loop ms ev annot).2).
Proof.
  induction 1 as [|l ls Hl _ IH]; simpl.
  - by destruct (markers_loop ms ev annot).
  - unfold is_hit in Hl. destruct (probe ev (ALine l)) as [hit info].
    simpl in Hl. subst hit. by rewrite IH.
Qed.

(** The first line that is hit ends the handler. *)
Lemma lines_loop_hit ls1 ln ls2 ms ev annot :
  Forall (λ l, is_hit ev (ALine l) = false) ls1 →
  is_hit ev (ALine ln) = true →
  lines_loop (ls1 ++ ln :: ls2) ms ev annot
  = ((CallContains <$> (ALine <$> ls1 ++ [ln]))
       ++ (show_sample ln (probe ev (ALine ln)).2 ev).1,
     (show_sample ln (probe ev (ALine ln)).2 ev).2).
Proof.
  intros Hls Hl. induction Hls as [|l ls1 Hl' _ IH]; simpl.
  - unfold is_hit in Hl. destruct (probe ev (ALine ln)) as [hit info].
    simpl in Hl. subst hit. simpl. by destruct (show_sample ln info ev).
  - unfold is_hit in Hl'. destruct (probe ev (ALine l)) as [hit info].
    simpl in Hl'. subst hit. by rewrite IH.
Qed.

Lemma markers_loop_probed ms ev annot :
  probed (markers_loop ms ev annot).1 = up_to_first_hit ev (AMarker <$> ms).
Proof.
  induction ms as [|m ms IH]; simpl.
  { pose proof (probed_hide annot). by destruct (hide annot). }
  unfold is_hit. destruct (probe ev (AMarker m)) as [[] info]; simpl; [done|].
  destruct (markers_loop ms ev annot). simpl in *. by rewrite IH.
Qed.

Lemma lines_loop_probed ls ms ev annot :
  probed (lines_loop ls ms ev annot).1
  = up_to_first_hit ev ((ALine <$> ls) ++ (AMarker <$> ms)).
Proof.
  induction ls as [|l ls IH]; simpl; [apply markers_loop_probed|].
  unfold is_hit. destruct (probe ev (ALine l)) as [[] info]; simpl.
  - pose proof (probed_show_sample l info ev).
    destruct (show_sample l info ev). simpl in *. by f_equal.
  - destruct (lines_loop ls ms ev annot). simpl in *. by rewrite IH.
Qed.

Lemma up_to_first_hit_miss ev (l : list artist) :
  Forall (λ a, is_hit ev a = false) l → up_to_first_hit ev l = l.
Proof. induction 1 as [|a l Ha _ IH]; simpl; [done|]. by rewrite Ha, IH. Qed.

Lemma hide_hidden annot : visible annot = false → hide annot = ([], annot).
Proof. unfold hide. by intros ->. Qed.

(** The lines [main] plots are Wheat, Flour and Bread, in this order, or
    none when no row of the trace was loaded. *)
Lemma plot_lines_labels (tr : trace) :
  line_label <$> plot_lines tr
  = match months tr with
    | [] => []
    | _ => [lit "Wheat"; lit "Flour"; lit "Bread"]
    end.
Proof. unfold plot_lines. by destruct (months tr). Qed.

Lemma main_lines (w : world) (a : args) (sc : scene) :
  outcome (main w a) = Ok sc →
  ∃ tr, lines sc = plot_lines tr.
Proof.
  unfold main. destruct (open_csv w (csv a)) as [t|]; [|done].
  destruct (negb _); [done|]. destruct (import_error w); [done|].
  destruct (events a) as [[|c path]|]; simpl.
  - intros [= <-]. by eexists.
  - destruct (read_events _) as [m|[]]; [| done |];
      destruct (overlay _ _); intros [= <-]; by eexists.
  - intros [= <-]. by eexists.
Qed.

(** What a scene of [main] says about the file it came from. *)
Lemma main_scene (w : world) (a : args) (sc : scene) :
  outcome (main w a) = Ok sc →
  ∃ t, open_csv w (csv a) = inl t
       ∧ lines sc = plot_lines (load_trace t)
       ∧ plot_title sc = title a.
Proof.
  unfold main. destruct (open_csv w (csv a)) as [t|]; [|done].
  destruct (negb _); [done|]. destruct (import_error w); [done|].
  destruct (events a) as [[|c path]|]; simpl.
  - intros [= <-]. by exists t.
  - destruct (read_events _) as [m|[]]; [| done |];
      destruct (overlay _ _); intros [= <-]; by exists t.
  - intros [= <-]. by exists t.
Qed.

Lemma load_trace_lengths (t : table) :
  let tr := load_trace t in
  length (months tr) = length (samples (rows t))
  ∧ length (wheat tr) = length (samples (rows t))
  ∧ length (flour tr) = length (samples (rows t))
  ∧ length (bread tr) = length (samples (rows t)).
Proof.
  destruct (trace_loop_samples (rows t)
              {| months := []; wheat := []; flour := []; bread := [] |})
    as (Hm & Hw & Hf & Hb).
  simpl in Hm, Hw, Hf, Hb. unfold load_trace. cbv zeta.
  by rewrite Hm, Hw, Hf, Hb, !length_fmap.
Qed.

Lemma py_index_is_Some {B : Type} (l : list B) (i : Z) :
  (- Z.of_nat (length l) ≤ i < Z.of_nat (length l))%Z → is_Some (py_index l i).
Proof.
  intros Hi. unfold py_index.
  destruct ((0 <=? i)%Z && (i <? Z.of_nat (length l))%Z) eqn:Hpos.
  - apply andb_true_iff in Hpos as [?%Z.leb_le ?%Z.ltb_lt].
    apply lookup_lt_is_Some_2. lia.
  - replace ((- Z.of_nat (length l) <=? i)%Z && (i <? 0)%Z) with true.
    + apply lookup_lt_is_Some_2. lia.
    + symmetry. apply andb_true_iff. split; [apply Z.leb_le; lia|].
      apply Z.ltb_lt. apply andb_false_iff in Hpos as [?%Z.leb_gt|?%Z.ltb_ge]; lia.
Qed.

Lemma fallback_index_range (xs : list float) (px : option float) :
  xs ≠ [] → (0 ≤ fallback_index xs px < Z.of_nat (length xs))%Z.
Proof.
  intros Hxs. assert (0 < length xs) by (destruct xs; [done | simpl; lia]).
  unfold fallback_index. destruct px as [x|]; [|lia].
  destruct (bisect_left float_lt xs x); lia.
Qed.

Lemma sample_index_range (ln : line) (info : hit_info) ev :
  line_x ln ≠ [] →
  (∀ r, reported_index info = Some r →
        (- Z.of_nat (length (line_x ln)) ≤ r < Z.of_nat (length (line_x ln)))%Z) →
  (- Z.of_nat (length (line_x ln)) ≤ sample_index ln info ev
   < Z.of_nat (length (line_x ln)))%Z.
Proof.
  intros Hxs Hr. unfold sample_index, get_xdata.
  destruct (reported_index info) as [r|]; [by apply Hr|].
  pose proof (fallback_index_range (line_x ln) (xdata ev) Hxs). lia.
Qed.

Lemma plot_lines_parallel (t : table) (ln : line) :
  ln ∈ plot_lines (load_trace t) →
  line_x ln ≠ [] ∧ length (line_y ln) = length (line_x ln).
Proof.
  unfold plot_lines. destruct (months (load_trace t)) as [|x xs] eqn:Hmonths;
    [by intros ?%elem_of_nil|].
  intros Hln. destruct (load_trace_lengths t) as (Hm & Hw & Hf & Hb).
  repeat (apply elem_of_cons in Hln as [->|Hln]);
    [| | |by apply elem_of_nil in Hln]; cbn [line_x line_y];
    rewrite <-Hmonths; (split; [by rewrite Hmonths | congruence]).
Qed.

End HoverFacts.

Section HoverTheorems.
Context `{Runtime}.


Lemma on_move_inaxes (sc : scene) (ev : event) (annot : annotation) :
  inaxes ev = true →
  on_move sc ev annot = lines_loop (lines sc) (hover_events sc) ev annot.
Proof. unfold on_move. by intros ->. Qed.

Lemma on_move_probed (sc : scene) (ev : event) (annot : annotation) :
  probed (on_move sc ev annot).1
  = (if inaxes ev
     then up_to_first_hit ev ((ALine <$> lines sc) ++ (AMarker <$> hover_events sc))
     else []).
Proof.
  unfold on_move. destruct (inaxes ev); simpl; [apply lines_loop_probed|].
  pose proof (probed_hide annot). by destruct (hide annot).
Qed.

(** C6.  In every run of the handler the artists probed are an initial
    part of the fixed order "lines as plotted, then markers as created",
    ending with the first artist that is hit (nothing is probed outside the
    axes).  The first line that is hit ends the run and no marker is
    probed: the annotation is moved to the sample of that line with the
    index the handler settles on, given the text of that sample, shown,
    and one redraw is requested.  (If the index is not one of the line's
    data the [IndexError] escapes and nothing is changed; in a scene of
    [main] this needs a hit test that reports an index the line does not
    have.)  Markers are
    probed only after every line missed, and the first marker that is hit
    ends the run: the annotation is moved to the pointer, given the text of
    that marker, shown, and one redraw is requested.  The lines of a scene
    of [main] are Wheat, Flour, Bread in this order (none for an empty
    trace). *)
Theorem on_move_priority (sc : scene) (ev : event) (annot : annotation) :
  probed (on_move sc ev annot).1
  = (if inaxes ev
     then up_to_first_hit ev ((ALine <$> lines sc) ++ (AMarker <$> hover_events sc))
     else [])
  ∧ (∀ ls1 ln ls2,
       inaxes ev = true → lines sc = ls1 ++ ln :: ls2 →
       Forall (λ l, is_hit ev (ALine l) = false) ls1 →
       is_hit ev (ALine ln) = true →
       probed (on_move sc ev annot).1 = ALine <$> ls1 ++ [ln]
       ∧ let i := sample_index ln (probe ev (ALine ln)).2 ev in
         match py_index (line_x ln) i, py_index (line_y ln) i with
         | Some x, Some v =>
             let p := (VFloat x, VFloat (of_int v)) in
             let txt := line_label ln ++ lit ": " ++ float_str (of_int v) ++ nl
                        ++ lit "@ t=" ++ format_3f x in
             on_move sc ev annot
             = ((CallContains <$> (ALine <$> ls1 ++ [ln]))
                  ++ [SetXY p; SetText txt; SetVisible true; DrawIdle],
                Ok {| xy := p; text := txt; visible := true |})
         | _, _ =>
             on_move sc ev annot
             = (CallContains <$> (ALine <$> ls1 ++ [ln]), Raise IndexError)
         end
         ∧ (∀ w a, outcome (main w a) = Ok sc → index_in_range ev ln →
              is_Some (py_index (line_x ln) i)
              ∧ is_Some (py_index (line_y ln) i)))
  ∧ (∀ ms1 m ms2,
       inaxes ev = true →
       Forall (λ l, is_hit ev (ALine l) = false) (lines sc) →
       hover_events sc = ms1 ++ m :: ms2 →
       Forall (λ m', is_hit ev (AMarker m') = false) ms1 →
       is_hit ev (AMarker m) = true →
       probed (on_move sc ev annot).1
       = (ALine <$> lines sc) ++ (AMarker <$> ms1 ++ [m])
       ∧ let p := (opt_float (xdata ev), opt_float (ydata ev)) in
         let txt := marker_label m ++ nl ++ lit "@ t="
                    ++ format_3f (marker_time m) in
         on_move sc ev annot
         = ((CallContains <$> ((ALine <$> lines sc) ++ (AMarker <$> ms1 ++ [m])))
              ++ [SetXY p; SetText txt; SetVisible true; DrawIdle],
            Ok {| xy := p; text := txt; visible := true |}))
  ∧ (∀ w a, outcome (main w a) = Ok sc →
            line_label <$> lines sc = []
            ∨ line_label <$> lines sc = [lit "Wheat"; lit "Flour"; lit "Bread"]).
Proof.
  split; [apply on_move_probed|split; [|split]].
  - intros ls1 ln ls2 Hin Hls Hmiss Hhit.
    rewrite on_move_inaxes, Hls by done.
    rewrite (lines_loop_hit ls1 ln ls2 _ ev annot Hmiss Hhit).
    split.
    + cbn [fst].
      by rewrite probed_app, probed_contains, probed_show_sample, app_nil_r.
    + cbv zeta. split.
      * rewrite show_sample_spec.
        destruct (py_index (line_x ln) _) as [x|]; [|by rewrite app_nil_r].
        destruct (py_index (line_y ln) _) as [v|]; [done|by rewrite app_nil_r].
      * intros w a Hout Hrange.
        destruct (main_scene w a sc Hout) as (t & _ & Hlines & _).
        destruct (plot_lines_parallel t ln) as [Hxs Hlen].
        { rewrite <-Hlines, Hls, elem_of_app. right. by left. }
        pose proof (sample_index_range ln (probe ev (ALine ln)).2 ev Hxs Hrange)
          as Hi.
        split; [by apply py_index_is_Some|].
        apply py_index_is_Some. by rewrite Hlen.
  - intros ms1 m ms2 Hin Hls Hms Hmiss Hhit.
    rewrite on_move_inaxes by done.
    rewrite (lines_loop_miss _ _ ev annot Hls), Hms.
    rewrite (markers_loop_hit ms1 m ms2 ev annot Hmiss Hhit). cbn [fst snd].
    rewrite (fmap_app CallContains). split; [|by rewrite app_assoc].
    rewrite !probed_app, !probed_contains.
    replace (probed (show_marker m ev).1) with (@nil artist) by done.
    by rewrite app_nil_r.
  - intros w a Hout. destruct (main_lines w a sc Hout) as [tr ->].
    rewrite plot_lines_labels. destruct (months tr); [by left | by right].
Qed.

(** C8.  When the pointer is outside the axes, or inside and no line and
    no marker is hit, the handler leaves the one annotation hidden, with its
    position and text as they were: a visible annotation is hidden by one
    [set_visible(False)] followed by one [draw_idle()], a hidden one is not
    touched and nothing is redrawn; so a second such event changes nothing
    and draws nothing. *)
Theorem on_move_no_hit (sc : scene) (ev ev' : event) (annot : annotation) :
  inaxes ev = false ∨ Forall (λ a, is_hit ev a = false) (artists sc) →
  inaxes ev' = false ∨ Forall (λ a, is_hit ev' a = false) (artists sc) →
  ∃ annot',
    (on_move sc ev annot).2 = Ok annot'
    ∧ visible annot' = false ∧ xy annot' = xy annot ∧ text annot' = text annot
    ∧ effects (on_move sc ev annot).1
      = (if visible annot then [SetVisible false; DrawIdle] else [])
    ∧ on_move sc ev' annot'
      = (if inaxes ev' then CallContains <$> artists sc else [], Ok annot').
Proof.
  assert (Hmiss : ∀ e a0,
            inaxes e = false ∨ Forall (λ a, is_hit e a = false) (artists sc) →
            on_move sc e a0
            = ((if inaxes e then CallContains <$> artists sc else [])
                 ++ (hide a0).1, Ok (hide a0).2)).
  { intros e a0 Hcase. unfold on_move.
    destruct (inaxes e) eqn:Hin; simpl; [|by destruct (hide a0)].
    destruct Hcase as [|Hall]; [done|].
    unfold artists in Hall. apply Forall_app in Hall as [Hls Hms].
    rewrite Forall_fmap in Hls. rewrite Forall_fmap in Hms.
    rewrite (lines_loop_miss _ _ e a0 Hls), (markers_loop_miss _ e a0 Hms).
    unfold artists. cbn [fst snd]. by rewrite fmap_app, <-app_assoc. }
  intros Hev Hev'. exists (hide annot).2.
  rewrite (Hmiss ev annot Hev). cbn [fst snd].
  assert (Hhid : visible (hide annot).2 = false).
  { unfold hide. by destruct (visible annot) eqn:Hv. }
  split; [done|]. split; [done|].
  split; [unfold hide; by destruct (visible annot)|].
  split; [unfold hide; by destruct (visible annot)|].
  split.
  - rewrite effects_app. unfold hide.
    destruct (inaxes ev), (visible annot); simpl;
      by rewrite ?effects_contains.
  - rewrite (Hmiss ev' _ Hev'), (hide_hidden _ Hhid). cbn [fst snd].
    by rewrite app_nil_r.
Qed.


(** C10 (as amended).  The items of the event index are gone through by
    strictly ascending label, each label once.  The markers are created
    label after label, those of a label at the times in the order [sorted]
    returns them: this is the label's times in some order, the given order
    when no time is smaller than the one before it, and ascending order
    whenever the times are ordered by [<] (no NaN among them).  The handler
    probes the markers in the order of their creation.  Every label gets a
    stub labelled "label (count)" with the number of the label's times,
    in the same order, and the legend shows the lines and then the stubs of
    the labels that do not begin with an underscore. *)
Theorem overlay_order (m : gmap str (list float)) (labels : list str) :
  let items := sorted_items m in
  let hover := (overlay m labels).1 in
  let stub (it : str * list float) :=
    it.1 ++ lit " (" ++ str_of_nat (length it.2) ++ lit ")" in
  let shown := List.filter (λ it, negb (startswith it.1 (lit "_"))) items in
  (∀ label times, (label, times) ∈ items ↔ m !! label = Some times)
  ∧ StronglySorted (λ a b, str_lt a.1 b.1 = true) items
  ∧ label_and_time <$> hover
    = items ≫= (λ it, (λ t, (it.1, t)) <$> py_sorted float_lt it.2)
  ∧ (∀ label times, m !! label = Some times →
       py_sorted float_lt times ≡ₚ times
       ∧ (is_run float_lt times = true → py_sorted float_lt times = times)
       ∧ (weak_order_on float_lt times →
          ascending float_lt (py_sorted float_lt times)))
  ∧ (overlay m labels).2 = labels ++ (stub <$> items)
  ∧ (∀ sc ev annot,
       hover_events sc = hover → inaxes ev = true →
       Forall (λ a, is_hit ev a = false) (artists sc) →
       probed (on_move sc ev annot).1 = (ALine <$> lines sc) ++ (AMarker <$> hover))
  ∧ (∀ w a t path,
       open_csv w (csv a) = inl t → has_headers trace_headers t = true →
       import_error w = None → events a = Some path → path ≠ [] →
       read_events (open_csv w path) = Ok m →
       labels = line_label <$> plot_lines (load_trace t) →
       ∃ sc, outcome (main w a) = Ok sc
             ∧ hover_events sc = hover
             ∧ legend sc = labels ++ (stub <$> shown)).
Proof.
  intros items hover stub shown.
  destruct (overlay_loop_spec 0 items [] labels) as [Hhover Hleg].
  split; [apply sorted_items_lookup|].
  split; [apply sorted_items_labels|].
  split; [done|].
  split; [|split; [done|split]].
  - intros label times _. split; [apply py_sorted_perm|].
    split; [apply sorted_keeps_run | apply py_sorted_ascending].
  - intros sc ev annot Hsc Hin Hall.
    rewrite on_move_probed, Hin.
    rewrite up_to_first_hit_miss by done. by rewrite Hsc.
  - intros w a t path Ht Hh Himp Hev Hpath Hread ->.
    rewrite (main_with_events w a t path Ht Hh Himp Hev Hpath). cbv zeta.
    rewrite Hread. eexists. split; [done|]. split; [done|]. cbn [legend].
    fold items. unfold overlay. fold items. rewrite Hleg.
    unfold ax_legend at 1. rewrite List.filter_app.
    fold (ax_legend (line_label <$> plot_lines (load_trace t))).
    fold (ax_legend ((λ it, stub_label it.1 it.2) <$> items)).
    by rewrite ax_legend_lines, ax_legend_stubs.
Qed.

End HoverTheorems.

(** ** The theorems at the sample inputs *)

Section Examples.
Import PrimFloat Sample.



Lemma on_move_priority_witness :
  probed (on_move example_scene on_flour initial_annot).1
  = [ALine wheat_line; ALine flour_line]
  ∧ (on_move example_scene on_flour initial_annot).2 = Ok shown.
Proof.
  destruct (on_move_priority example_scene on_flour initial_annot)
    as (_ & Hline & _).
  destruct (Hline [wheat_line] flour_line [bread_line]) as (Hp & Hres & _);
    [reflexivity | by vm_compute | repeat constructor | reflexivity |].
  split; [exact Hp|]. cbv zeta in Hres.
  assert (Hx : py_index (line_x flour_line)
                 (sample_index flour_line (probe on_flour (ALine flour_line)).2
                    on_flour) = Some 1%float) by (by vm_compute).
  assert (Hv : py_index (line_y flour_line)
                 (sample_index flour_line (probe on_flour (ALine flour_line)).2
                    on_flour) = Some 5%Z) by (by vm_compute).
  rewrite Hx, Hv in Hres. rewrite Hres. by vm_compute.
Defined.

Lemma on_move_no_hit_witness :
  (on_move example_scene (pointer_far 1.5 1) shown).2
  = Ok {| xy := xy shown; text := text shown; visible := false |}.
Proof.
  destruct (on_move_no_hit example_scene (pointer_far 1.5 1) (pointer_far 1.5 3)
              shown) as (annot' & Hr & Hv & Hxy & Htxt & _).
  - right. apply Forall_forall. by intros a _.
  - right. apply Forall_forall. by intros a _.
  - rewrite Hr. f_equal. destruct annot'. simpl in Hv, Hxy, Htxt. by subst.
Defined.



Lemma overlay_order_witness :
  ascending PrimFloat.ltb (py_sorted PrimFloat.ltb [2; 0.5]%float).
Proof.
  pose proof (overlay_order {[ lit "Mill.Grind" := [2; 0.5]%float ]} []) as HT.
  cbv zeta in HT. destruct HT as (_ & _ & _ & Hsorted & _).
  destruct (Hsorted (lit "Mill.Grind") [2; 0.5]%float) as (_ & _ & Hasc);
    [apply lookup_singleton_eq|].
  apply Hasc. intros x y z Hx Hy Hz.
  repeat match goal with
         | Hin : _ ∈ _ :: _ |- _ => apply elem_of_cons in Hin as [->|Hin]
         | Hin : _ ∈ [] |- _ => by apply elem_of_nil in Hin
         end;
    (split; vm_compute; intros; congruence).
Defined.

(** C10, as stated, fails twice.  With the times 2.0, nan, 1.0 for one
    label, no time is smaller than the one before it, [sorted] returns
    them in this order, and the marker at 1.0 is created after the marker
    at 2.0.  And the label "_hidden" gets its markers and its stub, but no
    entry in the legend. *)
Lemma nan_and_underscore_break_overlay :
  has_headers events_headers events_with_nan = true
  ∧ label_and_time <$> hover_events nan_scene
    = [(lit "Farm.Sow", 2); (lit "Farm.Sow", nan); (lit "Farm.Sow", 1)]%float
  ∧ PrimFloat.ltb 1 2 = true
  ∧ ¬ ascending PrimFloat.ltb (marker_time <$> hover_events nan_scene)
  ∧ has_headers events_headers events_with_underscore = true
  ∧ label_and_time <$> hover_events underscore_scene
    = [(lit "Farm.Sow", 2); (lit "_hidden", 1)]%float
  ∧ legend underscore_scene
    = [lit "Wheat"; lit "Flour"; lit "Bread"; lit "Farm.Sow (1)"].
Proof.
  split; [reflexivity|]. split; [by vm_compute|]. split; [reflexivity|].
  split; [|repeat split; by vm_compute].
  intros Hs.
  assert (Heq : marker_time <$> hover_events nan_scene = [2; nan; 1]%float)
    by (by vm_compute).
  rewrite Heq in Hs.
  pose proof (StronglySorted_lookup _ _ 0 2 _ _ Hs eq_refl eq_refl) as Hng.
  unfold not_greater in Hng. vm_compute in Hng. specialize (Hng ltac:(lia)).
  discriminate.
Qed.

End Examples.

(* ================================================================= *)
(** * Further properties of the code *)

(** ** Trimming *)

Section StripFacts.
Implicit Types (s t u w : str) (c : char).

Lemma lstrip_starts_clean s : starts_clean (lstrip s) = true.
Proof.
  induction s as [|c s IH]; [done|]. simpl.
  destruct (isspace c) eqn:Hc; [done|]. simpl. by rewrite Hc.
Qed.

Lemma lstrip_clean s : starts_clean s = true → lstrip s = s.
Proof.
  destruct s as [|c s]; [done|]. simpl. intros Hc%negb_true_iff. by rewrite Hc.
Qed.

Lemma lstrip_idem s : lstrip (lstrip s) = lstrip s.
Proof. apply lstrip_clean, lstrip_starts_clean. Qed.

Lemma lstrip_snoc u c : isspace c = false → ∃ v, lstrip (u ++ [c]) = v ++ [c].
Proof.
  intros Hc. induction u as [|x u IH]; simpl.
  - rewrite Hc. by exists [].
  - destruct (isspace x); [done|]. by exists (x :: u).
Qed.

Lemma rstrip_starts_clean t : starts_clean t = true → starts_clean (rstrip t) = true.
Proof.
  destruct t as [|c t]; [done|]. simpl. intros Hc%negb_true_iff.
  unfold rstrip. simpl. destruct (lstrip_snoc (rev t) c Hc) as [v ->].
  rewrite rev_unit. simpl. by rewrite Hc.
Qed.

Lemma strip_starts_clean s : starts_clean (strip s) = true.
Proof. apply rstrip_starts_clean, lstrip_starts_clean. Qed.

Lemma strip_ends_clean s : starts_clean (rev (strip s)) = true.
Proof.
  unfold strip, rstrip. rewrite rev_involutive. apply lstrip_starts_clean.
Qed.

(** A string that neither begins nor ends with whitespace is left alone. *)
Lemma strip_clean s :
  starts_clean s = true → starts_clean (rev s) = true → strip s = s.
Proof.
  intros Hs Hr. unfold strip, rstrip.
  by rewrite (lstrip_clean s Hs), (lstrip_clean _ Hr), rev_involutive.
Qed.

Lemma strip_idem s : strip (strip s) = strip s.
Proof. apply strip_clean; [apply strip_starts_clean | apply strip_ends_clean]. Qed.

Lemma elem_of_lstrip_1 c s : c ∈ lstrip s → c ∈ s.
Proof.
  induction s as [|x s IH]; [done|]. simpl.
  destruct (isspace x); [|done]. intros ?%IH. by right.
Qed.

Lemma elem_of_strip c s : c ∈ strip s → c ∈ s.
Proof.
  unfold strip, rstrip.
  rewrite list_elem_of_In, <-in_rev, <-list_elem_of_In.
  intros ?%elem_of_lstrip_1.
  apply elem_of_lstrip_1. by rewrite list_elem_of_In, in_rev, <-list_elem_of_In.
Qed.

Lemma lstrip_all_space w : all_space w = true → lstrip w = [].
Proof.
  induction w as [|c w IH]; [done|]. simpl.
  intros [-> ?]%andb_true_iff. by apply IH.
Qed.

Lemma lstrip_pad w s : all_space w = true → lstrip (w ++ s) = lstrip s.
Proof.
  induction w as [|c w IH]; [done|]. simpl.
  intros [-> ?]%andb_true_iff. by apply IH.
Qed.

Lemma lstrip_app s w : lstrip s ≠ [] → lstrip (s ++ w) = lstrip s ++ w.
Proof.
  induction s as [|c s IH]; [done|]. simpl.
  destruct (isspace c); [apply IH | done].
Qed.

Lemma lstrip_nil_app s w :
  lstrip s = [] → all_space w = true → lstrip (s ++ w) = [].
Proof.
  induction s as [|c s IH]; simpl; [intros _; apply lstrip_all_space|].
  destruct (isspace c); [apply IH | done].
Qed.

Lemma all_space_rev w : all_space (rev w) = all_space w.
Proof.
  unfold all_space. apply eq_true_iff_eq. rewrite !forallb_forall.
  by setoid_rewrite <-in_rev.
Qed.

Lemma rstrip_pad s w : all_space w = true → rstrip (s ++ w) = rstrip s.
Proof.
  intros Hw. unfold rstrip. rewrite rev_app_distr, lstrip_pad; [done|].
  by rewrite all_space_rev.
Qed.

Lemma rstrip_snoc s c : isspace c = false → rstrip (s ++ [c]) = s ++ [c].
Proof.
  intros Hc. unfold rstrip. rewrite rev_unit. simpl. rewrite Hc.
  by rewrite <-(rev_unit s c), rev_involutive.
Qed.

(** Whitespace around a string does not change what trimming gives. *)
Lemma strip_pad w1 s w2 :
  all_space w1 = true → all_space w2 = true → strip (w1 ++ s ++ w2) = strip s.
Proof.
  intros H1 H2. unfold strip. rewrite lstrip_pad by done.
  destruct (lstrip s) as [|c r] eqn:Hs.
  - by rewrite lstrip_nil_app.
  - rewrite lstrip_app, Hs by (by rewrite Hs). by apply rstrip_pad.
Qed.

End StripFacts.

(** ** More on the normalizer *)

Section NormalizerFacts.
Implicit Types (s r label : str) (p : char → bool).

Lemma before_first_forall p s c : c ∈ before_first p s → p c = false.
Proof.
  induction s as [|x s IH]; [by intros ?%elem_of_nil|].
  rewrite before_first_cons. destruct (p x) eqn:Hx; [by intros ?%elem_of_nil|].
  intros [->|?]%elem_of_cons; [done | by apply IH].
Qed.

Lemma before_first_app p a tail :
  (∀ c, c ∈ a → p c = false) →
  match tail with [] => True | c :: _ => p c = true end →
  before_first p (a ++ tail) = a.
Proof.
  intros Ha Htail. induction a as [|x a IH]; simpl.
  - destruct tail as [|c tail]; [done|]. rewrite before_first_cons. by rewrite Htail.
  - rewrite before_first_cons, (Ha x) by left. f_equal. apply IH.
    intros c Hc. apply Ha. by right.
Qed.

Lemma first_index_app p a c s :
  (∀ x, x ∈ a → p x = false) → p c = true →
  first_index p (a ++ c :: s) = Some (length a).
Proof.
  intros Ha Hc. induction a as [|x a IH]; simpl; [by rewrite Hc|].
  rewrite (Ha x) by left. rewrite IH; [done|]. intros y Hy. apply Ha. by right.
Qed.

Lemma last_index_snoc p s c : p c = true → last_index p (s ++ [c]) = Some (length s).
Proof.
  intros Hc. induction s as [|x s IH]; simpl; [by rewrite Hc|]. by rewrite IH.
Qed.

Lemma drop_S_app {B : Type} (a : list B) (c : B) (l : list B) :
  drop (S (length a)) (a ++ c :: l) = l.
Proof. induction a as [|x a IH]; simpl; [by rewrite drop_0 | done]. Qed.

Lemma starts_clean_app a b :
  a ≠ [] → starts_clean (a ++ b) = starts_clean a.
Proof. by destruct a. Qed.

(** The three shapes a result can have. *)
Lemma normalize_cases label r :
  normalize label = Some r →
  let s := strip label in
  (∃ inner, inner_after_open s = Some inner
            ∧ strip (before_first (is_char (ch "(")) s) ≠ []
            ∧ strip (before_first is_brace_or_paren inner) ≠ []
            ∧ r = strip (before_first (is_char (ch "(")) s) ++ lit "."
                  ++ strip (before_first is_brace_or_paren inner))
  ∨ (∃ name rest, name ∈ known_actors ∧ head_spec s = name ++ rest
                  ∧ rest ≠ [] ∧ r = name ++ lit "." ++ rest)
  ∨ r = head_spec s.
Proof.
  intros Hn s. rewrite normalize_unfold in Hn. cbv zeta in Hn. fold s in Hn.
  assert (Hfb : normalize_fallback s = Some r →
    (∃ name rest, name ∈ known_actors ∧ head_spec s = name ++ rest
                  ∧ rest ≠ [] ∧ r = name ++ lit "." ++ rest)
    ∨ r = head_spec s).
  { rewrite normalize_fallback_spec, normalize_loop_find.
    destruct (find _ known_actors) as [name|] eqn:Hfind; simpl;
      intros [= <-]; [left | by right].
    apply find_some in Hfind as [Hin Hpre].
    apply andb_true_iff in Hpre as [Hsw Hlen].
    apply startswith_app in Hsw as [rest Hrest]. apply Nat.ltb_lt in Hlen.
    exists name, rest. split; [by apply list_elem_of_In|]. split; [done|].
    rewrite Hrest, drop_app_length. split; [|done].
    intros ->. rewrite Hrest, app_nil_r in Hlen. lia. }
  destruct (contains (ch "(") s && contains (ch ")") s); [|right; by apply Hfb].
  destruct (inner_after_open s) as [inner|] eqn:Hinner; [|done].
  cbn [mbind option_bind] in Hn.
  destruct (bool_decide (strip (before_first (is_char (ch "(")) s) ≠ [])) eqn:Ha;
    [|right; by apply Hfb].
  destruct (bool_decide (strip (before_first is_brace_or_paren inner) ≠ [])) eqn:Hv;
    [|right; by apply Hfb].
  cbn [andb] in Hn. injection Hn as <-.
  apply bool_decide_eq_true in Ha, Hv.
  left. by exists inner.
Qed.

Lemma known_actor_cases name :
  name ∈ known_actors → name = lit "Farm" ∨ name = lit "Mill" ∨ name = lit "Bakery".
Proof.
  unfold known_actors.
  intros [->|[->|[->|?%elem_of_nil]%elem_of_cons]%elem_of_cons]%elem_of_cons;
    tauto.
Qed.

Lemma normalize_result_trimmed label r : normalize label = Some r → strip r = r.
Proof.
  intros Hn. destruct (normalize_cases label r Hn)
    as [(inner & _ & Ha & Hv & ->)|[(name & rest & Hin & Hhead & Hrest & ->)| ->]].
  - apply strip_clean.
    + rewrite starts_clean_app by done. apply strip_starts_clean.
    + rewrite !rev_app_distr, <-app_assoc, starts_clean_app.
      * apply strip_ends_clean.
      * intros Hnil. apply Hv. by rewrite <-(rev_involutive (strip _)), Hnil.
  - apply strip_clean.
    + destruct (known_actor_cases name Hin) as [->|[->| ->]]; done.
    + pose proof (strip_ends_clean (before_first is_brace_or_paren (strip label)))
        as Hclean.
      fold (head_spec (strip label)) in Hclean.
      assert (Hrev : rev rest ≠ []).
      { intros Hnil. apply Hrest. by rewrite <-(rev_involutive rest), Hnil. }
      rewrite Hhead, rev_app_distr, starts_clean_app in Hclean by done.
      by rewrite !rev_app_distr, <-app_assoc, starts_clean_app.
  - apply strip_idem.
Qed.

Lemma normalize_result_no_paren label r :
  normalize label = Some r → ch "(" ∉ r.
Proof.
  intros Hn.
  assert (Hhead : ch "(" ∉ head_spec (strip label)).
  { intros Hin%elem_of_strip%before_first_forall. done. }
  destruct (normalize_cases label r Hn)
    as [(inner & _ & _ & _ & ->)|[(name & rest & Hin & Hh & _ & ->)| ->]];
    [| |done].
  - rewrite !elem_of_app.
    intros [Hin%elem_of_strip%before_first_forall
           |[Hin|Hin%elem_of_strip%before_first_forall]]; [done| |done].
    apply list_elem_of_In in Hin. simpl in Hin. by destruct Hin.
  - rewrite Hh in Hhead. rewrite !elem_of_app in *.
    intros [Hn'|[Hdot|Hr]]; [tauto| |tauto].
    apply list_elem_of_In in Hdot. simpl in Hdot. by destruct Hdot.
Qed.

(** X1.  [normalize] never raises: the subscript [[1]] of line 13 is only
    reached when the string holds a "(", and every other subscript is
    [[0]]. *)
Theorem normalize_never_raises (label : str) : ∃ r, normalize label = Some r.
Proof. destruct (normalize_total label) as [r Hr]. by exists r. Qed.

(** X2.  A normalized label never holds a "(".  Normalizing it again
    therefore always takes the fallback path: the result is computed from
    its text before the first "{" alone. *)
Theorem normalize_output_has_no_paren (label r : str) :
  normalize label = Some r →
  contains (ch "(") r = false
  ∧ normalize_nested (strip r) = Some None
  ∧ normalize r
    = Some (default (head_spec r) (normalize_loop known_actors (head_spec r))).
Proof.
  intros Hn.
  assert (Hno : contains (ch "(") r = false).
  { apply not_true_iff_false. rewrite contains_elem_of.
    by apply normalize_result_no_paren with label. }
  pose proof (normalize_result_trimmed label r Hn) as Htrim.
  split; [done|]. split.
  - unfold normalize_nested. by rewrite Htrim, Hno.
  - rewrite normalize_unfold. cbv zeta. rewrite Htrim, Hno. cbn [andb].
    apply normalize_fallback_spec.
Qed.

(** X3.  A normalized label is trimmed: it neither begins nor ends with
    whitespace. *)
Theorem normalize_output_trimmed (label r : str) :
  normalize label = Some r →
  strip r = r ∧ starts_clean r = true ∧ starts_clean (rev r) = true.
Proof.
  intros Hn. pose proof (normalize_result_trimmed label r Hn) as Htrim.
  split; [done|]. rewrite <-Htrim.
  split; [apply strip_starts_clean | apply strip_ends_clean].
Qed.

(** X4.  Whitespace before and after a label does not change its
    normalized form. *)
Theorem normalize_ignores_outer_whitespace (w1 label w2 : str) :
  all_space w1 = true → all_space w2 = true →
  normalize (w1 ++ label ++ w2) = normalize label.
Proof.
  intros H1 H2. unfold normalize. by rewrite strip_pad.
Qed.

(** X5.  A label of the form [actor(variant tail)], where [actor] holds no
    "(", [variant] holds neither "{" nor "(", and [tail] is empty or begins
    with "{" or "(", normalizes to the trimmed actor, a dot and the trimmed
    variant, provided both are non-empty. *)
Theorem normalize_canonical_form (actor variant tail : str) :
  contains (ch "(") actor = false →
  (∀ c, c ∈ variant → is_brace_or_paren c = false) →
  match tail with [] => True | c :: _ => is_brace_or_paren c = true end →
  strip actor ≠ [] → strip variant ≠ [] →
  normalize (actor ++ lit "(" ++ variant ++ tail ++ lit ")")
  = Some (strip actor ++ lit "." ++ strip variant).
Proof.
  intros Hactor Hvariant Htail Ha Hv.
  assert (Hl : lstrip actor ≠ []).
  { intros Hnil. apply Ha. unfold strip. by rewrite Hnil. }
  assert (Hs : strip (actor ++ lit "(" ++ variant ++ tail ++ lit ")")
               = lstrip actor ++ ch "(" :: (variant ++ tail) ++ [ch ")"]).
  { unfold strip. rewrite lstrip_app by done.
    change (lit "(" ++ variant ++ tail ++ lit ")")
      with (ch "(" :: variant ++ tail ++ [ch ")"]).
    replace (lstrip actor ++ ch "(" :: variant ++ tail ++ [ch ")"])
      with ((lstrip actor ++ ch "(" :: variant ++ tail) ++ [ch ")"])
      by (by rewrite <-!app_assoc; simpl; rewrite <-!app_assoc).
    rewrite rstrip_snoc by done.
    by rewrite <-!app_assoc; simpl; rewrite <-!app_assoc. }
  assert (Hnone : ∀ x, x ∈ lstrip actor → is_char (ch "(") x = false).
  { intros x Hx%elem_of_lstrip_1. unfold is_char.
    apply not_true_iff_false. intros Heq%N.eqb_eq. subst x.
    apply contains_elem_of in Hx. congruence. }
  assert (Hfirst : first_index (is_char (ch "("))
                     (lstrip actor ++ ch "(" :: (variant ++ tail) ++ [ch ")"])
                   = Some (length (lstrip actor)))
    by (by apply first_index_app).
  rewrite normalize_unfold. cbv zeta. rewrite Hs.
  replace (contains (ch "(") (lstrip actor ++ ch "(" :: (variant ++ tail) ++ [ch ")"]))
    with true.
  2:{ symmetry. apply contains_elem_of. rewrite elem_of_app. right. by left. }
  replace (contains (ch ")") (lstrip actor ++ ch "(" :: (variant ++ tail) ++ [ch ")"]))
    with true.
  2:{ symmetry. apply contains_elem_of. rewrite elem_of_app. right. right.
      rewrite elem_of_app. right. by left. }
  cbn [andb]. rewrite (inner_after_open_at _ _ Hfirst).
  rewrite !drop_S_app. rewrite last_index_snoc by done.
  rewrite take_app_length. cbn [mbind option_bind].
  assert (Hbefore : before_first (is_char (ch "("))
                      (lstrip actor ++ ch "(" :: (variant ++ tail) ++ [ch ")"])
                    = lstrip actor).
  { unfold before_first. by rewrite Hfirst, take_app_length. }
  rewrite Hbefore, (before_first_app _ variant tail Hvariant Htail).
  replace (strip (lstrip actor)) with (strip actor)
    by (unfold strip; by rewrite lstrip_idem).
  by rewrite !bool_decide_true.
Qed.

End NormalizerFacts.

(** ** Rows of a file *)

Section RowFacts.
Implicit Types (k : str) (d : list (str * option str)) (fs : list str)
  (r : record).

Lemma dict_get_fold_zip_notin k (kvs : list (str * str)) d :
  k ∉ kvs.*1 →
  dict_get k (fold_left (λ d kv, dict_set kv.1 (Some kv.2) d) kvs d)
  = dict_get k d.
Proof.
  revert d. induction kvs as [|[k' v'] kvs IH]; intros d; simpl; [done|].
  rewrite not_elem_of_cons. intros [Hne Hnotin].
  rewrite IH by done. rewrite dict_get_set. by rewrite decide_False.
Qed.

Lemma dict_get_fold_zip_lookup k v (kvs : list (str * str)) d i :
  NoDup kvs.*1 → kvs !! i = Some (k, v) →
  dict_get k (fold_left (λ d kv, dict_set kv.1 (Some kv.2) d) kvs d)
  = Some (Some v).
Proof.
  revert d i. induction kvs as [|[k' v'] kvs IH]; intros d i; [done|].
  simpl. intros [Hnotin Hnd]%NoDup_cons. destruct i as [|i]; simpl.
  - intros [= -> ->]. rewrite dict_get_fold_zip_notin by done.
    rewrite dict_get_set. by rewrite decide_True.
  - intros Hi. by apply (IH _ i).
Qed.

Lemma dict_get_fold_none_notin k (ks : list str) d :
  k ∉ ks → dict_get k (fold_left (λ d k, dict_set k None d) ks d) = dict_get k d.
Proof.
  revert d. induction ks as [|k' ks IH]; intros d; simpl; [done|].
  rewrite not_elem_of_cons. intros [Hne Hnotin].
  rewrite IH by done. rewrite dict_get_set. by rewrite decide_False.
Qed.

Lemma dict_get_fold_none_keep k (ks : list str) d :
  dict_get k d = Some None →
  dict_get k (fold_left (λ d k, dict_set k None d) ks d) = Some None.
Proof.
  revert d. induction ks as [|k' ks IH]; intros d; simpl; [done|].
  intros Hd. apply IH. rewrite dict_get_set. by case_decide.
Qed.

Lemma dict_get_fold_none_in k (ks : list str) d :
  k ∈ ks → dict_get k (fold_left (λ d k, dict_set k None d) ks d) = Some None.
Proof.
  revert d. induction ks as [|k' ks IH]; intros d; [by intros ?%elem_of_nil|].
  simpl. destruct (decide (k = k')) as [->|Hne].
  - intros _. apply dict_get_fold_none_keep. rewrite dict_get_set.
    by rewrite decide_True.
  - intros [?|?]%elem_of_cons; [done | by apply IH].
Qed.

(** With distinct header names, [row[k]] is the field in the column of
    [k], and [None] when the record ends before that column. *)
Lemma row_get fs r i k :
  NoDup fs → fs !! i = Some k →
  dict_get k (named (make_row fs r)) = Some (r !! i).
Proof.
  intros Hnd Hk. pose proof (lookup_lt_Some _ _ _ Hk) as Hi.
  assert (Hzip : NoDup (zip fs r).*1).
  { rewrite fst_zip_take. eapply sublist_NoDup; [done | apply sublist_take]. }
  unfold make_row. destruct (r !! i) as [v|] eqn:Hv.
  - assert (Hkv : zip fs r !! i = Some (k, v)).
    { apply lookup_zip_with_Some. by exists k, v. }
    pose proof (lookup_lt_Some _ _ _ Hv) as Hir.
    destruct (length fs <? length r) eqn:Hlen; simpl.
    + by apply dict_get_fold_zip_lookup with i.
    + rewrite dict_get_fold_none_notin; [by apply dict_get_fold_zip_lookup with i|].
      rewrite <-(take_drop (length r) fs) in Hnd.
      apply NoDup_app in Hnd as (_ & Hdisj & _). apply Hdisj.
      apply list_elem_of_lookup. exists i. by rewrite lookup_take_lt.
  - apply lookup_ge_None in Hv.
    replace (length fs <? length r) with false
      by (symmetry; apply Nat.ltb_ge; lia).
    simpl. apply dict_get_fold_none_in.
    apply list_elem_of_lookup. exists (i - length r).
    rewrite lookup_drop. rewrite <-Hk. f_equal. lia.
Qed.

Lemma row_rest fs r :
  rest (make_row fs r)
  = if length fs <? length r then Some (drop (length fs) r) else None.
Proof. unfold make_row. by destruct (length fs <? length r). Qed.

End RowFacts.

Section RowTheorems.
Context `{Runtime}.

(** X6.  In an events file whose header names are distinct, with [months]
    in column [i] and [event] in column [j], a record is kept exactly when
    it reaches both columns and its [months] field converts to a float; its
    raw label is then the [event] field with every field beyond the header
    appended, joined by commas, and trimmed.  A record that ends before
    the [event] column is dropped like one with a bad [months]. *)
Theorem event_row_semantics (fs : list str) (r : record) (i j : nat) :
  NoDup fs → fs !! i = Some (lit "months") → fs !! j = Some (lit "event") →
  event_of_row (make_row fs r)
  = (m ← r !! i; t ← to_float m; e ← r !! j;
     Some (t, strip (join (lit ",") (e :: drop (length fs) r)))).
Proof.
  intros Hnd Hi Hj. unfold event_of_row.
  rewrite (row_get fs r i _ Hnd Hi), (row_get fs r j _ Hnd Hj), row_rest.
  cbn [mbind option_bind default].
  destruct (r !! i) as [m|]; [|done]. cbn [mbind option_bind].
  destruct (to_float m) as [t|]; [|done]. cbn [mbind option_bind].
  destruct (length fs <? length r) eqn:Hlen.
  - apply Nat.ltb_lt in Hlen.
    destruct (drop (length fs) r) as [|x xs] eqn:Hdrop.
    { apply (f_equal length) in Hdrop. rewrite length_drop in Hdrop.
      simpl in Hdrop. lia. }
    by destruct (r !! j).
  - apply Nat.ltb_ge in Hlen. rewrite drop_ge by done.
    by destruct (r !! j).
Qed.

(** X7.  In a trace file whose header names are distinct, a record gives
    a sample exactly when it reaches the four required columns and the
    four fields convert; the sample is read by column name, so the order
    of the columns does not matter and further columns are ignored. *)
Theorem trace_row_semantics (fs : list str) (r : record) (i jw jf jb : nat) :
  NoDup fs →
  fs !! i = Some (lit "months") → fs !! jw = Some (lit "wheat") →
  fs !! jf = Some (lit "flour") → fs !! jb = Some (lit "bread") →
  sample_of_row (make_row fs r)
  = (t ← r !! i ≫= to_float; w ← r !! jw ≫= to_int;
     fl ← r !! jf ≫= to_int; br ← r !! jb ≫= to_int;
     Some (t, w, fl, br)).
Proof.
  intros Hnd Hi Hw Hf Hb. unfold sample_of_row, float_field, int_field.
  rewrite (row_get fs r i _ Hnd Hi), (row_get fs r jw _ Hnd Hw),
    (row_get fs r jf _ Hnd Hf), (row_get fs r jb _ Hnd Hb).
  cbn [mbind option_bind].
  by destruct (r !! i), (r !! jw), (r !! jf), (r !! jb).
Qed.

End RowTheorems.

(** ** From the events file to the markers *)

Section IndexFacts.
Context `{Runtime}.
Implicit Types (m : gmap str (list float)) (rs : list row).

Lemma read_events_with_headers (t : table) :
  has_headers events_headers t = true →
  read_events (inl t) = events_loop (rows t) ∅.
Proof. intros Hh. unfold read_events. by rewrite Hh. Qed.

Lemma occurrences_insert m key t :
  occurrences (<[key := default [] (m !! key) ++ [t]]> m)
  ≡ₚ occurrences m ++ [(key, t)].
Proof.
  unfold occurrences. destruct (m !! key) as [old|] eqn:Hm; simpl.
  - rewrite <-(insert_delete_eq m).
    rewrite <-(insert_delete_id m key old Hm) at 2.
    rewrite !map_to_list_insert by apply lookup_delete_eq.
    rewrite !bind_cons. simpl. rewrite fmap_app. simpl.
    rewrite <-!app_assoc. f_equiv. apply Permutation_app_comm.
  - rewrite map_to_list_insert by done. rewrite bind_cons. simpl.
    by rewrite Permutation_cons_append.
Qed.

Lemma accepted_cons r rs :
  accepted (r :: rs)
  = match event_of_row r with
    | Some e => match normalize e.2 with
                | Some key => (key, e.1) :: accepted rs
                | None => accepted rs
                end
    | None => accepted rs
    end.
Proof.
  unfold accepted. simpl. destruct (event_of_row r) as [e|]; simpl; [|done].
  by destruct (normalize e.2).
Qed.

Lemma events_loop_occurrences rs m m' :
  events_loop rs m = Ok m' → occurrences m' ≡ₚ occurrences m ++ accepted rs.
Proof.
  revert m. induction rs as [|r rs IH]; intros m.
  - simpl. intros [= <-]. by rewrite app_nil_r.
  - rewrite accepted_cons. simpl.
    destruct (event_of_row r) as [[t label]|]; simpl; [|apply IH].
    destruct (normalize label) as [key|]; [|done].
    intros Hloop. rewrite (IH _ Hloop), occurrences_insert.
    by rewrite <-app_assoc.
Qed.

Lemma bind_perm_ext {A B : Type} (f g : A → list B) (l : list A) :
  (∀ x, f x ≡ₚ g x) → l ≫= f ≡ₚ l ≫= g.
Proof.
  intros Hfg. induction l as [|x l IH]; [done|].
  rewrite !bind_cons. by rewrite Hfg, IH.
Qed.

Lemma overlay_occurrences m (leg : list str) :
  label_and_time <$> (overlay m leg).1 ≡ₚ occurrences m.
Proof.
  unfold overlay. destruct (overlay_loop_spec 0 (sorted_items m) [] leg) as [-> _].
  simpl. unfold occurrences. rewrite <-(sorted_items_perm m).
  apply bind_perm_ext. intros it. by rewrite py_sorted_perm.
Qed.

(** X8.  In the event index of a file with the two headers, no label has
    an empty list of times, and every key is the normalized label of a row
    that was kept, hence trimmed and free of "(". *)
Theorem event_index_invariants (t : table) (m : gmap str (list float))
    (key : str) (ts : list float) :
  has_headers events_headers t = true →
  read_events (inl t) = Ok m →
  m !! key = Some ts →
  ts ≠ []
  ∧ (∃ r e, r ∈ rows t ∧ event_of_row r = Some e ∧ normalize e.2 = Some key)
  ∧ strip key = key
  ∧ contains (ch "(") key = false.
Proof.
  intros Hh Hread Hkey. rewrite read_events_with_headers in Hread by done.
  destruct (events_loop_spec (rows t) ∅) as (m' & Hm' & Hkeys).
  rewrite Hread in Hm'. injection Hm' as <-.
  rewrite Hkeys, lookup_empty in Hkey.
  destruct (times_for key (rows t)) as [|t0 ts'] eqn:Htimes; [done|].
  injection Hkey as <-. split; [done|].
  assert (Hin : t0 ∈ times_for key (rows t)) by (rewrite Htimes; by left).
  unfold times_for in Hin. apply list_elem_of_omap in Hin as (r & Hr & Hsome).
  destruct (event_of_row r) as [e|] eqn:He; [|done]. simpl in Hsome.
  destruct (decide (normalize e.2 = Some key)) as [Hn|]; [|done].
  split; [by exists r, e|].
  split; [by apply normalize_result_trimmed with e.2|].
  apply not_true_iff_false. rewrite contains_elem_of.
  by apply normalize_result_no_paren with e.2.
Qed.

(** X9.  Every row the events loader keeps gets exactly one marker, with
    the row's normalized label and time, and there are no other markers:
    the markers are a rearrangement of the kept rows. *)
Theorem markers_are_the_kept_rows (t : table) (leg : list str) :
  has_headers events_headers t = true →
  ∃ m, read_events (inl t) = Ok m
       ∧ label_and_time <$> (overlay m leg).1 ≡ₚ accepted (rows t)
       ∧ length (overlay m leg).1 = length (accepted (rows t)).
Proof.
  intros Hh. rewrite read_events_with_headers by done.
  destruct (events_loop_spec (rows t) ∅) as (m & Hm & _).
  exists m. split; [done|].
  assert (Hperm : label_and_time <$> (overlay m leg).1 ≡ₚ accepted (rows t)).
  { rewrite overlay_occurrences, (events_loop_occurrences _ _ _ Hm).
    unfold occurrences. by rewrite map_to_list_empty. }
  split; [done|]. by rewrite <-Hperm, length_fmap.
Qed.

Lemma overlay_loop_elem i0 (items : list (str * list float))
    (hover : list marker) (leg : list str) (mk : marker) :
  mk ∈ (overlay_loop i0 items hover leg).1
  ↔ mk ∈ hover
    ∨ ∃ i label times t,
        items !! i = Some (label, times) ∧ t ∈ times
        ∧ mk = {| marker_color :=
                    default [] (palette !! ((i0 + i) `mod` length palette));
                  marker_label := label; marker_time := t |}.
Proof.
  revert i0 hover leg. induction items as [|[label times] items IH];
    intros i0 hover leg.
  - simpl. split; [by left|]. intros [?|(i & ? & ? & ? & ? & _)]; done.
  - cbn [overlay_loop]. rewrite IH, elem_of_app. unfold label_markers.
    rewrite list_elem_of_fmap. setoid_rewrite (py_sorted_perm float_lt times).
    split.
    + intros [[?|(t & -> & Ht)]|(i & l & ts & t & Hi & Ht & ->)].
      * by left.
      * right. exists 0, label, times, t. by rewrite Nat.add_0_r.
      * right. exists (S i), l, ts, t. split; [done|]. split; [done|].
        by rewrite Nat.add_succ_r.
    + intros [?|(i & l & ts & t & Hi & Ht & ->)]; [by left; left|].
      destruct i as [|i]; simpl in Hi.
      * injection Hi as -> ->. left. right. exists t.
        by rewrite Nat.add_0_r.
      * right. exists i, l, ts, t. split; [done|]. split; [done|].
        by rewrite Nat.add_succ_r.
Qed.

(** X10.  A marker has the colour of its label: the palette entry at the
    label's position among the sorted labels, taken modulo the eight
    entries.  So every colour is one of the palette, and markers with the
    same label have the same colour. *)
Theorem marker_colours (m : gmap str (list float)) (leg : list str) :
  let hover := (overlay m leg).1 in
  (∀ mk, mk ∈ hover →
     ∃ i times, sorted_items m !! i = Some (marker_label mk, times)
                ∧ marker_time mk ∈ times
                ∧ palette !! (i `mod` 8) = Some (marker_color mk))
  ∧ (∀ mk, mk ∈ hover → marker_color mk ∈ palette)
  ∧ (∀ mk1 mk2, mk1 ∈ hover → mk2 ∈ hover →
       marker_label mk1 = marker_label mk2 → marker_color mk1 = marker_color mk2).
Proof.
  intros hover.
  assert (Hmk : ∀ mk, mk ∈ hover →
     ∃ i times, sorted_items m !! i = Some (marker_label mk, times)
                ∧ marker_time mk ∈ times
                ∧ palette !! (i `mod` 8) = Some (marker_color mk)).
  { intros mk Hin. unfold hover, overlay in Hin.
    apply overlay_loop_elem in Hin as [?%elem_of_nil|(i & l & ts & t & Hi & Ht & ->)];
      [done|].
    exists i, ts. split; [done|]. split; [done|]. cbn [marker_color].
    change (0 + i) with i. change (length palette) with 8.
    destruct (lookup_lt_is_Some_2 palette (i `mod` 8)) as [c Hc].
    { change (length palette) with 8. apply Nat.mod_upper_bound. lia. }
    unfold str in *. by rewrite Hc. }
  split; [done|]. split.
  - intros mk (i & _ & _ & _ & Hc)%Hmk. by eapply list_elem_of_lookup_2.
  - intros mk1 mk2 (i1 & ts1 & H1 & _ & Hc1)%Hmk (i2 & ts2 & H2 & _ & Hc2)%Hmk Hl.
    assert (i1 = i2) as ->.
    { apply (NoDup_lookup (sorted_items m).*1 i1 i2 (marker_label mk1)).
      - rewrite sorted_items_perm. apply NoDup_fst_map_to_list.
      - by rewrite list_lookup_fmap, H1.
      - by rewrite list_lookup_fmap, H2, Hl. }
    congruence.
Qed.

End IndexFacts.

(** ** How [main] ends *)

Section MainEndings.
Context `{Runtime}.

(** X11.  [main] ends in exactly one of five ways, decided in this order:
    the trace file cannot be opened (the [OSError] escapes, nothing is
    printed); the trace header is incomplete (one line on stderr, exit
    status 2); matplotlib cannot be imported (one line on stderr, exit
    status 3, the events file is not looked at); an events file is named,
    can be opened and has an incomplete header (the [SystemExit] of
    [read_events]); otherwise the plot is set up, with the lines of the
    loaded trace and the given title.  Bad rows never end the run. *)
Theorem main_endings (w : world) (a : args) :
  (∃ msg, open_csv w (csv a) = inr msg
          ∧ main w a = {| stderr := []; outcome := Raise (Exception msg) |})
  ∨ (∃ t, open_csv w (csv a) = inl t
          ∧ has_headers trace_headers t = false
          ∧ main w a
            = {| stderr := [lit "CSV missing required headers months,wheat,flour,bread"];
                 outcome := Raise (SystemExit (inl 2%Z)) |})
  ∨ (∃ t e, open_csv w (csv a) = inl t
            ∧ has_headers trace_headers t = true
            ∧ import_error w = Some e
            ∧ main w a
              = {| stderr := [lit "matplotlib not available: " ++ e];
                   outcome := Raise (SystemExit (inl 3%Z)) |})
  ∨ (∃ t path et, open_csv w (csv a) = inl t
                  ∧ has_headers trace_headers t = true
                  ∧ import_error w = None
                  ∧ events a = Some path ∧ path ≠ []
                  ∧ open_csv w path = inl et
                  ∧ has_headers events_headers et = false
                  ∧ main w a = {| stderr := []; outcome := Raise events_exit |})
  ∨ (∃ t sc, open_csv w (csv a) = inl t
             ∧ has_headers trace_headers t = true
             ∧ import_error w = None
             ∧ (events a = None ∨ events a = Some []
                ∨ ∃ path, events a = Some path ∧ path ≠ []
                          ∧ ((∃ msg, open_csv w path = inr msg)
                             ∨ ∃ et, open_csv w path = inl et
                                     ∧ has_headers events_headers et = true))
             ∧ outcome (main w a) = Ok sc
             ∧ lines sc = plot_lines (load_trace t)
             ∧ plot_title sc = title a).
Proof.
  destruct (open_csv w (csv a)) as [t|msg] eqn:Ht.
  2:{ left. exists msg. split; [done|]. unfold main. by rewrite Ht. }
  right. destruct (has_headers trace_headers t) eqn:Hh.
  2:{ left. exists t. split; [done|]. split; [done|]. unfold main.
      by rewrite Ht, Hh. }
  right. destruct (import_error w) as [e|] eqn:Himp.
  { left. exists t, e. repeat (split; [done|]). unfold main.
    by rewrite Ht, Hh, Himp. }
  right. destruct (events a) as [[|c path]|] eqn:Hev.
  - right. eexists t, _. repeat (split; [done|]). split; [by right; left|].
    unfold main. rewrite Ht, Hh, Himp, Hev. simpl. done.
  - pose proof (main_with_events w a t (c :: path) Ht Hh Himp Hev) as Hmain.
    cbv zeta in Hmain. rewrite Hmain by done.
    destruct (open_csv w (c :: path)) as [et|msg] eqn:Het.
    + destruct (has_headers events_headers et) eqn:Hhe.
      * right. rewrite read_events_with_headers by done.
        destruct (events_loop_spec (rows et) ∅) as (m & -> & _).
        eexists t, _. repeat (split; [done|]). split; [|done].
        right; right. exists (c :: path). repeat (split; [done|]).
        right. by exists et.
      * left. exists t, (c :: path), et. repeat (split; [done|]).
        unfold read_events. by rewrite Hhe.
    + right. eexists t, _. repeat (split; [done|]). split; [|done].
      right; right. exists (c :: path). repeat (split; [done|]).
      left. by exists msg.
  - right. eexists t, _. repeat (split; [done|]). split; [by left|].
    unfold main. rewrite Ht, Hh, Himp, Hev. simpl. done.
Qed.

(** X12.  A scene of [main] has either no line, exactly when no row of the
    trace gave a sample, or the three lines Wheat, Flour and Bread in this
    order; the three lines share their times, and each has as many values
    as times, namely one per row that gave a sample. *)
Theorem scene_lines_are_parallel (w : world) (a : args) (sc : scene) :
  outcome (main w a) = Ok sc →
  ∃ t, open_csv w (csv a) = inl t
       ∧ (lines sc = [] ↔ samples (rows t) = [])
       ∧ (samples (rows t) ≠ [] →
          line_label <$> lines sc = [lit "Wheat"; lit "Flour"; lit "Bread"])
       ∧ ∀ ln, ln ∈ lines sc →
           line_x ln = months (load_trace t)
           ∧ length (line_x ln) = length (samples (rows t))
           ∧ length (line_y ln) = length (samples (rows t)).
Proof.
  intros Hout. destruct (main_scene w a sc Hout) as (t & Ht & Hlines & _).
  exists t. split; [done|]. rewrite Hlines.
  destruct (load_trace_lengths t) as (Hm & Hw & Hf & Hb).
  unfold plot_lines.
  destruct (months (load_trace t)) as [|x xs] eqn:Hmonths.
  - simpl in Hm. symmetry in Hm. apply nil_length_inv in Hm.
    split; [done|]. split; [done|]. by intros ln ?%elem_of_nil.
  - split.
    { split; [done|]. intros Hs. rewrite Hs in Hm. done. }
    split; [done|].
    intros ln Hln. repeat (apply elem_of_cons in Hln as [->|Hln]);
      [| | |by apply elem_of_nil in Hln]; simpl; rewrite <-Hmonths; done.
Qed.

End MainEndings.

(** ** More on the hover resolver *)

Section HoverMore.
Context `{Runtime}.
Implicit Types (ev : event) (annot : annotation) (ls : list line)
  (ms : list marker) (sc : scene).

(** A list is missed throughout, or splits at its first hit. *)
Lemma first_hit_split {B : Type} (f : B → bool) (l : list B) :
  Forall (λ x, f x = false) l
  ∨ ∃ l1 x l2, l = l1 ++ x :: l2 ∧ Forall (λ y, f y = false) l1 ∧ f x = true.
Proof.
  induction l as [|x l IH]; [by left|].
  destruct (f x) eqn:Hx.
  - right. by exists [], x, l.
  - destruct IH as [Hall|(l1 & y & l2 & -> & Hl1 & Hy)].
    + left. by constructor.
    + right. exists (x :: l1), y, l2. split; [done|]. split; [by constructor|done].
Qed.

(** What [show_sample] gives, by whether the index is one of the arrays. *)
Lemma show_sample_cases (ln : line) (info : hit_info) ev :
  (∃ x y, py_index (get_xdata ln) (sample_index ln info ev) = Some x
          ∧ py_index (get_ydata ln) (sample_index ln info ev) = Some y
          ∧ show_sample ln info ev
            = ((update_annot ln x y).2 ++ [DrawIdle], Ok (update_annot ln x y).1))
  ∨ ((py_index (get_xdata ln) (sample_index ln info ev) = None
      ∨ py_index (get_ydata ln) (sample_index ln info ev) = None)
     ∧ show_sample ln info ev = ([], Raise IndexError)).
Proof.
  unfold show_sample. cbv zeta.
  destruct (py_index (get_xdata ln) _) as [x|]; [|right; split; [by left|done]].
  destruct (py_index (get_ydata ln) _) as [y|]; [|right; split; [by right|done]].
  left. by exists x, y.
Qed.

(** The handler's result in each of its four situations. *)
Lemma on_move_cases sc ev annot :
  (inaxes ev = false
   ∧ on_move sc ev annot = ((hide annot).1, Ok (hide annot).2))
  ∨ (inaxes ev = true
     ∧ Forall (λ a, is_hit ev a = false) (artists sc)
     ∧ on_move sc ev annot
       = ((CallContains <$> artists sc) ++ (hide annot).1, Ok (hide annot).2))
  ∨ (inaxes ev = true
     ∧ ∃ ls1 ln ls2,
         lines sc = ls1 ++ ln :: ls2
         ∧ Forall (λ l, is_hit ev (ALine l) = false) ls1
         ∧ is_hit ev (ALine ln) = true
         ∧ on_move sc ev annot
           = ((CallContains <$> (ALine <$> ls1 ++ [ln]))
                ++ (show_sample ln (probe ev (ALine ln)).2 ev).1,
              (show_sample ln (probe ev (ALine ln)).2 ev).2))
  ∨ (inaxes ev = true
     ∧ Forall (λ l, is_hit ev (ALine l) = false) (lines sc)
     ∧ ∃ ms1 m ms2,
         hover_events sc = ms1 ++ m :: ms2
         ∧ Forall (λ m', is_hit ev (AMarker m') = false) ms1
         ∧ is_hit ev (AMarker m) = true
         ∧ on_move sc ev annot
           = ((CallContains <$> ((ALine <$> lines sc) ++ (AMarker <$> ms1 ++ [m])))
                ++ (show_marker m ev).1,
              Ok (show_marker m ev).2)).
Proof.
  destruct (inaxes ev) eqn:Hin.
  2:{ left. split; [done|]. unfold on_move. rewrite Hin. simpl.
      by destruct (hide annot). }
  right. rewrite on_move_inaxes by done.
  destruct (first_hit_split (λ l, is_hit ev (ALine l)) (lines sc))
    as [Hls|(ls1 & ln & ls2 & Hsplit & Hls1 & Hln)].
  2:{ right; left. split; [done|]. exists ls1, ln, ls2.
      repeat (split; [done|]). rewrite Hsplit. by apply lines_loop_hit. }
  rewrite (lines_loop_miss _ _ ev annot Hls).
  destruct (first_hit_split (λ m, is_hit ev (AMarker m)) (hover_events sc))
    as [Hms|(ms1 & m & ms2 & Hsplit & Hms1 & Hm)].
  - left. split; [done|]. split.
    { unfold artists. apply Forall_app. by rewrite !Forall_fmap. }
    rewrite (markers_loop_miss _ ev annot Hms). cbn [fst snd].
    unfold artists. by rewrite fmap_app, <-app_assoc.
  - right; right. split; [done|]. split; [done|]. exists ms1, m, ms2.
    repeat (split; [done|]). rewrite Hsplit.
    rewrite (markers_loop_hit ms1 m ms2 ev annot Hms1 Hm). cbn [fst snd].
    by rewrite (fmap_app CallContains), app_assoc.
Qed.

(** X13.  The only exception the handler lets out is the [IndexError] of
    [xd[ind]] or [yd[ind]].  On a scene of [main] it comes from nowhere but
    an index reported by [contains] that lies outside the line's arrays:
    when every reported index is one of the arrays, or none is reported,
    the handler returns normally. *)
Theorem on_move_raises_only_on_bad_index (sc : scene) (ev : event)
    (annot : annotation) :
  (∀ e, (on_move sc ev annot).2 = Raise e → e = IndexError)
  ∧ (∀ w a, outcome (main w a) = Ok sc →
            (∀ ln, ln ∈ lines sc → index_in_range ev ln) →
            ∃ annot', (on_move sc ev annot).2 = Ok annot').
Proof.
  split.
  - intros e.
    destruct (on_move_cases sc ev annot)
      as [[_ ->]|[(_ & _ & ->)|[(_ & ls1 & ln & ls2 & _ & _ & _ & ->)
                              |(_ & _ & ms1 & m & ms2 & _ & _ & _ & ->)]]];
      cbn [snd]; try done.
    destruct (show_sample_cases ln (probe ev (ALine ln)).2 ev)
      as [(x & y & _ & _ & ->)|[_ ->]]; cbn [snd]; [done|]. by intros [= <-].
  - intros w a Hout Hrange.
    destruct (main_scene w a sc Hout) as (t & _ & Hlines & _).
    destruct (on_move_cases sc ev annot)
      as [[_ ->]|[(_ & _ & ->)|[(_ & ls1 & ln & ls2 & Hsplit & _ & _ & ->)
                              |(_ & _ & ms1 & m & ms2 & _ & _ & _ & ->)]]];
      cbn [snd]; try by eexists.
    assert (Hln : ln ∈ lines sc).
    { rewrite Hsplit, elem_of_app. right. by left. }
    destruct (plot_lines_parallel t ln) as [Hxs Hlen]; [by rewrite <-Hlines|].
    pose proof (sample_index_range ln (probe ev (ALine ln)).2 ev Hxs
                  (Hrange ln Hln)) as Hi.
    destruct (show_sample_cases ln (probe ev (ALine ln)).2 ev)
      as [(x & y & _ & _ & ->)|[[Hnone|Hnone] _]]; cbn [snd]; [by eexists| |].
    + destruct (py_index_is_Some (get_xdata ln) _ Hi) as [? ?]. congruence.
    + rewrite <-Hlen, <-(length_fmap of_int) in Hi.
      destruct (py_index_is_Some (get_ydata ln) _ Hi) as [? ?]. congruence.
Qed.

Lemma probe_quiet ev (a : artist) : probe (quiet ev) a = probe ev a.
Proof. unfold probe, quiet. simpl. by destruct (hit_test ev a). Qed.

Lemma show_sample_ext (ln : line) (info : hit_info) ev ev' :
  xdata ev = xdata ev' → show_sample ln info ev = show_sample ln info ev'.
Proof.
  intros Hx. unfold show_sample, sample_index. by rewrite Hx.
Qed.

Lemma markers_loop_ext ms ev ev' annot :
  xdata ev = xdata ev' → ydata ev = ydata ev' →
  (∀ a, probe ev a = probe ev' a) →
  markers_loop ms ev annot = markers_loop ms ev' annot.
Proof.
  intros Hx Hy Hp. induction ms as [|m ms IH]; simpl; [done|].
  rewrite Hp, IH. unfold show_marker. by rewrite Hx, Hy.
Qed.

Lemma lines_loop_ext ls ms ev ev' annot :
  xdata ev = xdata ev' → ydata ev = ydata ev' →
  (∀ a, probe ev a = probe ev' a) →
  lines_loop ls ms ev annot = lines_loop ls ms ev' annot.
Proof.
  intros Hx Hy Hp. induction ls as [|l ls IH]; simpl.
  - by apply markers_loop_ext.
  - rewrite Hp, IH. destruct (probe ev' (ALine l)) as [hit info].
    by rewrite (show_sample_ext l info ev ev' Hx).
Qed.

(** X14.  A [contains] that raises is taken as "no hit": the handler does
    exactly what it does when that [contains] returns [(False, {})], and
    the exception never leaves it. *)
Theorem contains_error_is_a_miss (sc : scene) (ev : event) (annot : annotation) :
  on_move sc (quiet ev) annot = on_move sc ev annot
  ∧ (∀ a, hit_test ev a = ContainsRaises → is_hit ev a = false).
Proof.
  split.
  - unfold on_move. change (inaxes (quiet ev)) with (inaxes ev).
    destruct (inaxes ev); [|done]. simpl.
    apply lines_loop_ext; [done | done | apply probe_quiet].
  - intros a Ha. unfold is_hit, probe. by rewrite Ha.
Qed.

(** X15.  When no line is hit and a marker is the first one hit, the
    annotation is put at the pointer's own coordinates, not at the
    marker's time, with the marker's label, a newline and "@ t=" followed
    by the marker's time with three decimals; it is made visible and one
    redraw is requested. *)
Theorem on_move_marker_tooltip (sc : scene) (ev : event) (annot : annotation)
    (ms1 : list marker) (m : marker) (ms2 : list marker) :
  inaxes ev = true →
  Forall (λ l, is_hit ev (ALine l) = false) (lines sc) →
  hover_events sc = ms1 ++ m :: ms2 →
  Forall (λ m', is_hit ev (AMarker m') = false) ms1 →
  is_hit ev (AMarker m) = true →
  let p := (opt_float (xdata ev), opt_float (ydata ev)) in
  let txt := marker_label m ++ nl ++ lit "@ t=" ++ format_3f (marker_time m) in
  (on_move sc ev annot).2 = Ok {| xy := p; text := txt; visible := true |}
  ∧ effects (on_move sc ev annot).1
    = [SetXY p; SetText txt; SetVisible true; DrawIdle].
Proof.
  intros Hin Hls Hms Hms1 Hm p txt.
  rewrite on_move_inaxes by done.
  rewrite (lines_loop_miss _ _ ev annot Hls), Hms.
  rewrite (markers_loop_hit ms1 m ms2 ev annot Hms1 Hm). cbn [fst snd].
  split; [done|].
  by rewrite !effects_app, !effects_contains.
Qed.

(** X16.  The handler overwrites, it does not accumulate: when an artist
    is hit, the calls and the resulting annotation do not depend on the
    annotation before; and in every case a second run on the same event,
    started from the result of the first, ends in the same annotation. *)
Theorem on_move_is_idempotent (sc : scene) (ev : event) (annot annot' : annotation) :
  (on_move sc ev annot).2 = Ok annot' →
  (on_move sc ev annot').2 = Ok annot'
  ∧ (inaxes ev = true → Exists (λ a, is_hit ev a = true) (artists sc) →
     ∀ other, on_move sc ev other = on_move sc ev annot).
Proof.
  intros Hres.
  assert (Hhide : ∀ a0, hide (hide a0).2 = ([], (hide a0).2)).
  { intros a0. apply hide_hidden. unfold hide. by destruct (visible a0) eqn:Hv. }
  destruct (on_move_cases sc ev annot)
    as [[Hin Heq]|[(Hin & Hall & Heq)|[(Hin & ls1 & ln & ls2 & Hsplit & Hls1 & Hln & Heq)
                 |(Hin & Hls & ms1 & m & ms2 & Hsplit & Hms1 & Hm & Heq)]]].
  - rewrite Heq in Hres. injection Hres as <-. split; [|congruence].
    unfold on_move. rewrite Hin. simpl. by rewrite Hhide.
  - rewrite Heq in Hres. injection Hres as <-. split.
    + destruct (on_move_cases sc ev (hide annot).2)
        as [[Hin' _]|[(_ & _ & ->)|[(_ & ls1 & ln & ls2 & Hsplit & _ & Hln & _)
                   |(_ & _ & ms1 & m & ms2 & Hsplit & _ & Hm & _)]]].
      * congruence.
      * by rewrite Hhide.
      * rewrite Forall_forall in Hall. rewrite (Hall (ALine ln)) in Hln; [done|].
        unfold artists. rewrite elem_of_app, Hsplit, fmap_app, elem_of_app.
        left. right. by left.
      * rewrite Forall_forall in Hall. rewrite (Hall (AMarker m)) in Hm; [done|].
        unfold artists. rewrite elem_of_app, Hsplit, fmap_app, elem_of_app.
        right. right. by left.
    + intros _ Hex. apply Exists_exists in Hex as (a0 & Ha0 & Hhit).
      rewrite Forall_forall in Hall. rewrite (Hall a0 Ha0) in Hhit. done.
  - assert (Hany : ∀ other, on_move sc ev other = on_move sc ev annot).
    { intros other. rewrite Heq, on_move_inaxes, Hsplit by done.
      by apply lines_loop_hit. }
    split; [by rewrite Hany | done].
  - assert (Hany : ∀ other, on_move sc ev other = on_move sc ev annot).
    { intros other. rewrite Heq, on_move_inaxes by done.
      rewrite (lines_loop_miss _ _ ev other Hls), Hsplit.
      rewrite (markers_loop_hit ms1 m ms2 ev other Hms1 Hm). cbn [fst snd].
      by rewrite (fmap_app CallContains), app_assoc. }
    split; [by rewrite Hany | done].
Qed.

(** X17.  Besides the hit tests, a run of the handler makes one of three
    sequences of calls: none, and then the annotation is as before (it was
    hidden already, or the run ended in the [IndexError]); hiding followed
    by one [draw_idle()], for an annotation that was visible; or position,
    text, showing and one [draw_idle()], after which the annotation is
    exactly what was set.  So a redraw is requested at most once, and
    exactly when the annotation was touched. *)
Theorem on_move_redraw_discipline (sc : scene) (ev : event) (annot : annotation) :
  (effects (on_move sc ev annot).1 = []
   ∧ ((on_move sc ev annot).2 = Ok annot ∧ visible annot = false
      ∨ (on_move sc ev annot).2 = Raise IndexError))
  ∨ (effects (on_move sc ev annot).1 = [SetVisible false; DrawIdle]
     ∧ visible annot = true
     ∧ (on_move sc ev annot).2
       = Ok {| xy := xy annot; text := text annot; visible := false |})
  ∨ (∃ p txt,
       effects (on_move sc ev annot).1
       = [SetXY p; SetText txt; SetVisible true; DrawIdle]
       ∧ (on_move sc ev annot).2 = Ok {| xy := p; text := txt; visible := true |}).
Proof.
  assert (Hhide : ∀ calls,
    effects calls = [] →
    (effects (calls ++ (hide annot).1) = []
     ∧ (Ok (hide annot).2 = Ok annot ∧ visible annot = false
        ∨ Ok (hide annot).2 = @Raise annotation IndexError))
    ∨ (effects (calls ++ (hide annot).1) = [SetVisible false; DrawIdle]
       ∧ visible annot = true
       ∧ Ok (hide annot).2
         = Ok {| xy := xy annot; text := text annot; visible := false |})).
  { intros calls Hcalls. rewrite effects_app, Hcalls. unfold hide.
    destruct (visible annot) eqn:Hv; simpl; [by right|]. left.
    split; [done|]. by left. }
  destruct (on_move_cases sc ev annot)
    as [[_ ->]|[(_ & _ & ->)|[(_ & ls1 & ln & ls2 & _ & _ & _ & ->)
                            |(_ & _ & ms1 & m & ms2 & _ & _ & _ & ->)]]];
    cbn [fst snd].
  - destruct (Hhide [] eq_refl) as [?|?]; [by left | by right; left].
  - destruct (Hhide (CallContains <$> artists sc) (effects_contains _))
      as [?|?]; [by left | by right; left].
  - rewrite effects_app, effects_contains. cbn [app].
    destruct (show_sample_cases ln (probe ev (ALine ln)).2 ev)
      as [(x & y & _ & _ & ->)|[_ ->]]; cbn [fst snd].
    + right; right. unfold update_annot. cbn [fst snd]. by eexists _, _.
    + left. split; [done|]. by right.
  - rewrite effects_app, effects_contains. cbn [app].
    right; right. unfold show_marker. cbn [fst snd]. by eexists _, _.
Qed.

End HoverMore.

(** ** Files without records *)

Section EmptyFiles.
Context `{Runtime}.

(** X18.  A file without any record has no header row and is treated as
    one with missing headers: as trace it ends the run with exit status 2,
    as events file it makes [read_events] raise its [SystemExit].  A file
    with a complete header and no further record is accepted: as events
    file it gives an empty index and no marker, as trace a plot without
    lines. *)
Theorem files_without_records (w : world) (a : args) (header : list str) :
  (open_csv w (csv a) = inl [] →
   main w a
   = {| stderr := [lit "CSV missing required headers months,wheat,flour,bread"];
        outcome := Raise (SystemExit (inl 2%Z)) |})
  ∧ read_events (inl []) = Raise events_exit
  ∧ (has_headers events_headers [header] = true →
     read_events (inl [header]) = Ok ∅
     ∧ ∀ leg, overlay ∅ leg = ([], leg))
  ∧ (open_csv w (csv a) = inl [header] →
     ∀ sc, outcome (main w a) = Ok sc → lines sc = []).
Proof.
  split; [|split; [done|split]].
  - intros Ht. unfold main. by rewrite Ht.
  - intros Hh. split; [|apply overlay_empty].
    unfold read_events. by rewrite Hh.
  - intros Ht sc Hout.
    destruct (main_scene w a sc Hout) as (t & Ht' & Hlines & _).
    rewrite Ht in Ht'. injection Ht' as <-. by rewrite Hlines.
Qed.

End EmptyFiles.

(** ** The further properties at the sample inputs *)

Section MoreExamples.
Import PrimFloat Sample.

Lemma normalize_output_has_no_paren_witness :
  contains (ch "(") (lit "Farm.Sow") = false
  ∧ normalize (lit "Farm.Sow") = Some (lit "Farm..Sow").
Proof.
  destruct (normalize_output_has_no_paren (lit "Farm(Sow{})") (lit "Farm.Sow"))
    as (Hno & _ & Hagain); [by vm_compute|].
  split; [done|]. rewrite Hagain. by vm_compute.
Defined.

Lemma normalize_output_trimmed_witness : strip (lit "Farm.Sow") = lit "Farm.Sow".
Proof.
  by destruct (normalize_output_trimmed (lit " Farm ( Sow {} ) ") (lit "Farm.Sow"))
    as (Htrim & _); [by vm_compute|].
Defined.

Lemma normalize_ignores_outer_whitespace_witness :
  normalize (lit "  MillGrind ") = normalize (lit "MillGrind").
Proof.
  exact (normalize_ignores_outer_whitespace (lit "  ") (lit "MillGrind") (lit " ")
           eq_refl eq_refl).
Defined.

Lemma normalize_canonical_form_witness :
  normalize (lit "Mill( Grind {x:1})") = Some (lit "Mill.Grind").
Proof.
  apply (normalize_canonical_form (lit "Mill") (lit " Grind ") (lit "{x:1}"));
    [reflexivity | | reflexivity | discriminate | discriminate].
  intros c Hc.
  repeat (apply elem_of_cons in Hc as [->|Hc]; [reflexivity|]).
  by apply elem_of_nil in Hc.
Defined.

Lemma event_row_semantics_witness :
  event_of_row (make_row [lit "months"; lit "event"] ragged_record)
  = Some (1%float, lit "Farm(Sow{}),a,b").
Proof.
  rewrite (event_row_semantics [lit "months"; lit "event"] ragged_record 0 1);
    [by vm_compute | | reflexivity | reflexivity].
  apply (bool_decide_unpack _). by vm_compute.
Defined.

Lemma trace_row_semantics_witness :
  sample_of_row (make_row shuffled_header shuffled_record)
  = Some (1%float, 10%Z, 5%Z, 2%Z).
Proof.
  rewrite (trace_row_semantics shuffled_header shuffled_record 1 3 4 0);
    [by vm_compute | | reflexivity..].
  apply (bool_decide_unpack _). by vm_compute.
Defined.

Lemma event_index_invariants_witness :
  strip (lit "Farm.Sow") = lit "Farm.Sow"
  ∧ contains (ch "(") (lit "Farm.Sow") = false.
Proof.
  destruct (@event_index_invariants ieee two_sowings
              {[ lit "Farm.Sow" := [1; 1]%float ]} (lit "Farm.Sow") [1; 1]%float)
    as (_ & _ & Htrim & Hno);
    [reflexivity | by vm_compute | apply lookup_singleton_eq | done].
Defined.

Lemma markers_are_the_kept_rows_witness :
  ∃ m, read_events (inl events_out_of_order) = Ok m
       ∧ length (overlay m []).1 = 3.
Proof.
  destruct (markers_are_the_kept_rows events_out_of_order [] eq_refl)
    as (m & Hm & _ & Hlen).
  exists m. split; [done|]. rewrite Hlen. by vm_compute.
Defined.

Lemma marker_colours_witness :
  marker_color sow_marker ∈ palette.
Proof.
  pose proof (@marker_colours ieee {[ lit "Farm.Sow" := [1; 1]%float ]} [])
    as HT.
  cbv zeta in HT. destruct HT as (_ & Hpal & _).
  apply Hpal. vm_compute. by left.
Defined.

Lemma scene_lines_are_parallel_witness :
  length (line_y flour_line) = 3 ∧ length (line_x flour_line) = 3.
Proof.
  destruct (scene_lines_are_parallel example_world example_args example_scene)
    as (t & Ht & _ & _ & Hlines); [by vm_compute|].
  injection Ht as <-.
  destruct (Hlines flour_line) as (_ & -> & ->); [|by vm_compute].
  vm_compute. right. by left.
Defined.

Lemma on_move_raises_only_on_bad_index_witness :
  ∃ annot', (on_move example_scene on_flour initial_annot).2 = Ok annot'.
Proof.
  destruct (on_move_raises_only_on_bad_index example_scene on_flour initial_annot)
    as [_ Hok].
  apply (Hok example_world example_args); [by vm_compute|].
  intros ln Hln r Hr.
  assert (Hlines : lines example_scene = [wheat_line; flour_line; bread_line])
    by (by vm_compute).
  rewrite Hlines in Hln. clear Hlines Hok.
  repeat (apply elem_of_cons in Hln as [->|Hln]);
    [| | |by apply elem_of_nil in Hln]; vm_compute in Hr.
  - discriminate Hr.
  - injection Hr as <-. vm_compute. split; [discriminate | reflexivity].
  - discriminate Hr.
Defined.

Lemma contains_error_is_a_miss_witness :
  is_hit jammed (ALine wheat_line) = false.
Proof.
  by apply (proj2 (contains_error_is_a_miss example_scene jammed initial_annot)).
Defined.

Lemma on_move_marker_tooltip_witness :
  (on_move example_scene on_last_marker initial_annot).2
  = Ok {| xy := (VFloat 2%float, VFloat 7%float);
          text := lit "Mill.Grind" ++ nl ++ lit "@ t=2.000";
          visible := true |}.
Proof.
  pose proof (on_move_marker_tooltip example_scene on_last_marker initial_annot
                [sow_marker; grind_marker 0.5] (grind_marker 2) []) as HT.
  cbv zeta in HT.
  destruct HT as [Hres _];
    [reflexivity | | by vm_compute | repeat constructor | reflexivity |].
  { apply Forall_forall. by intros l _. }
  rewrite Hres. by vm_compute.
Defined.

Lemma on_move_is_idempotent_witness :
  (on_move example_scene on_flour shown).2 = Ok shown.
Proof.
  by destruct (on_move_is_idempotent example_scene on_flour initial_annot shown)
    as [Hagain _]; [by vm_compute|].
Defined.

Lemma files_without_records_witness :
  read_events (inl [[lit "months"; lit "event"]]) = Ok ∅.
Proof.
  destruct (files_without_records example_world example_args
              [lit "months"; lit "event"]) as (_ & _ & Hevents & _).
  by destruct (Hevents eq_refl).
Defined.

End MoreExamples.
